(** * SecretDeal: the deal lifecycle of [contracts/SecretDeal.sol]

    A shallow embedding of the contract's storage and of its external
    functions, followed by the properties of the lifecycle state machine.

    Conventions of the embedding
    - [uint256] and [address] values are [N]; [address(0)] is [0].
    - a Solidity [mapping] is a finite map read with the total lookup [!!!]:
      a key that was never written reads as the zero value of the type,
      which is what the [Inhabited] instances below provide for the two
      structs; a [uint256] entry is read with [default 0].
    - a transaction either returns [Ok] with the new storage or reverts
      ([Err]); a reverted transaction leaves the storage as it was.
    - arithmetic is the checked arithmetic of Solidity 0.8: an increment
      that would leave the [uint256] range reverts with [Panic(0x11)]. *)

From Stdlib Require Import NArith Sorted.
From stdpp Require Import gmap strings list.

Open Scope N_scope.

(** ** Results of a call *)

Inductive Error : Type :=
| RequireFailed (reason : string)   (* require(cond, reason) with cond false *)
| Panic (code : N)                  (* checked arithmetic, Panic(uint256) *)
| ExternalRevert.                   (* a revert inside the FHE library *)

Inductive Result (A : Type) : Type :=
| Ok (a : A)
| Err (e : Error).
Arguments Ok {A} a.
Arguments Err {A} e.

Definition bind {A B : Type} (r : Result A) (k : A -> Result B) : Result B :=
  match r with
  | Ok a => k a
  | Err e => Err e
  end.

Notation "x <- r ;; k" := (bind r (fun x => k))
  (at level 62, r at level 60, right associativity).
Notation "r ;;; k" := (bind r (fun _ => k))
  (at level 62, right associativity).

Definition require (cond : bool) (reason : string) : Result unit :=
  if cond then Ok tt else Err (RequireFailed reason).

Definition succeeds {A : Type} (r : Result A) : Prop := exists a, r = Ok a.

Definition MAX_UINT256 : N := 2 ^ 256 - 1.

(** [x++] on a [uint256]: the new value, or [Panic(0x11)] on overflow. *)
Definition checked_incr (x : N) : Result N :=
  if x <? MAX_UINT256 then Ok (x + 1) else Err (Panic 17).

(** ** Storage *)

Definition MAX_DEAL_NAME_LENGTH : N := 256.
Definition MAX_PARTIES_PER_DEAL : N := 100.

Record Deal : Type := mkDeal {
  dealName : string;
  requiredParties : N;
  createdAt : N;
  finalized : bool;
  cancelled : bool;
  creator : N;
  parties : list N
}.

Record Offer : Type := mkOffer {
  party : N;
  encryptedValue : N;
  title : string;
  description : string;
  timestamp : N;
  revealed : bool
}.

Inductive Event : Type :=
| DealCreated (dealId : N) (name : string) (required : N) (by_ : N)
| OfferSubmitted (dealId : N) (who : N) (offerTitle : string)
| OfferRevealed (dealId : N) (who : N)
| DealFinalized (dealId : N) (at_ : N)
| DealCancelled (dealId : N) (canceller : N).

#[global] Instance Deal_inhabited : Inhabited Deal :=
  populate (mkDeal EmptyString 0 0 false false 0 []).

#[global] Instance Offer_inhabited : Inhabited Offer :=
  populate (mkOffer 0 0 EmptyString EmptyString 0 false).

Record State : Type := mkState {
  dealCounter : N;
  deals : gmap N Deal;
  offers : gmap N (gmap N Offer);
  offerCount : gmap N N;
  partyDeals : gmap N (list N);
  (* outside the contract: the access grants made through FHE.allow *)
  acl : list (N * N);
  (* the log of emitted events, latest last *)
  events : list Event
}.

(** The storage of a freshly deployed contract. *)
Definition initial : State := mkState 0 ∅ ∅ ∅ ∅ [] [].

(** The three statuses of the specification, read off the two flags. *)
Inductive Status : Type := Open | Finalized | Cancelled.

Definition status (d : Deal) : Status :=
  if finalized d then Finalized
  else if cancelled d then Cancelled
  else Open.

(** ** Transactions *)

Inductive Cmd : Type :=
| CreateDeal (name : string) (required : N)
| SubmitOffer (dealId : N) (inputEuint32 : N) (inputProof : string)
    (title_ description_ : string)
| RevealOffer (dealId : N)
| FinalizeDeal (dealId : N)
| CancelDeal (dealId : N).

(** A transaction: [msg.sender], [block.timestamp] and the call. *)
Record Tx : Type := mkTx { sender : N; now : N; cmd : Cmd }.

(** ** A deployment for the examples

    An FHE library that accepts every input proof and hands the external
    handle back, the address of the contract, and three accounts. *)

Definition FHE_accept (inputEuint32 : N) (inputProof : string) : option N :=
  Some inputEuint32.

Definition contract_address : N := 4096.
Definition alice : N := 1.
Definition bob : N := 2.
Definition carol : N := 3.

Definition create_pilot : Tx := mkTx alice 100 (CreateDeal "Pilot Deal" 2).
Definition submit_bob : Tx :=
  mkTx bob 110 (SubmitOffer 0 500 "proof" "Offer B" "terms").
Definition submit_bob_again : Tx :=
  mkTx bob 140 (SubmitOffer 0 900 "proof" "Offer B2" "new terms").
Definition submit_carol : Tx :=
  mkTx carol 150 (SubmitOffer 0 700 "proof" "Offer C" "terms").
Definition reveal_bob : Tx := mkTx bob 120 (RevealOffer 0).
Definition cancel_alice : Tx := mkTx alice 130 (CancelDeal 0).
Definition finalize_carol : Tx := mkTx carol 130 (FinalizeDeal 0).

(** ** The contract *)

Section Contract.

(** [FHE.fromExternal]: checks the input proof and yields the handle of the
    encrypted value, or reverts ([None]). The library is not part of the
    contract, so it is a parameter, as is the contract's own address. *)
Variable FHE_fromExternal : N -> string -> option N.
Variable this : N.

Definition createDeal (sender now : N) (name : string) (required : N)
    (s : State) : Result (N * State) :=
  require (0 <? required) "At least one party required" ;;;
  require (required <=? MAX_PARTIES_PER_DEAL) "Too many required parties" ;;;
  require (0 <? N.of_nat (String.length name)) "Deal name cannot be empty" ;;;
  require (N.of_nat (String.length name) <=? MAX_DEAL_NAME_LENGTH)
    "Deal name too long" ;;;
  let dealId := dealCounter s in
  next <- checked_incr (dealCounter s) ;;
  (* six fields are assigned; the parties array of the slot is not *)
  let deal :=
    mkDeal name required now false false sender
      (parties (deals s !!! dealId)) in
  Ok (dealId,
      mkState next (<[dealId := deal]> (deals s)) (offers s) (offerCount s)
        (partyDeals s) (acl s)
        (events s ++ [DealCreated dealId name required sender])).

Definition submitOffer (sender now : N) (dealId : N) (inputEuint32 : N)
    (inputProof : string) (title_ description_ : string) (s : State)
    : Result State :=
  let deal := deals s !!! dealId in
  require (negb (finalized deal)) "Deal already finalized" ;;;
  require (negb (cancelled deal)) "Deal has been cancelled" ;;;
  require (party ((offers s !!! dealId) !!! sender) =? 0)
    "Offer already submitted" ;;;
  require (0 <? N.of_nat (String.length title_)) "Title cannot be empty" ;;;
  require (N.of_nat (length (parties deal)) <? MAX_PARTIES_PER_DEAL)
    "Maximum parties reached" ;;;
  handle <- match FHE_fromExternal inputEuint32 inputProof with
            | Some h => Ok h
            | None => Err ExternalRevert
            end ;;
  let offer := mkOffer sender handle title_ description_ now false in
  let deal' :=
    mkDeal (dealName deal) (requiredParties deal) (createdAt deal)
      (finalized deal) (cancelled deal) (creator deal)
      (parties deal ++ [sender]) in
  count <- checked_incr (default 0 (offerCount s !! dealId)) ;;
  Ok (mkState (dealCounter s)
        (<[dealId := deal']> (deals s))
        (<[dealId := <[sender := offer]> (offers s !!! dealId)]> (offers s))
        (<[dealId := count]> (offerCount s))
        (<[sender := partyDeals s !!! sender ++ [dealId]]> (partyDeals s))
        (acl s ++ [(handle, this); (handle, sender)])
        (events s ++ [OfferSubmitted dealId sender title_])).

Definition revealOffer (sender : N) (dealId : N) (s : State) : Result State :=
  let offer := (offers s !!! dealId) !!! sender in
  require (party offer =? sender) "No offer found for this address" ;;;
  require (negb (revealed offer)) "Offer already revealed" ;;;
  require (negb (cancelled (deals s !!! dealId))) "Deal has been cancelled" ;;;
  let offer' :=
    mkOffer (party offer) (encryptedValue offer) (title offer)
      (description offer) (timestamp offer) true in
  Ok (mkState (dealCounter s) (deals s)
        (<[dealId := <[sender := offer']> (offers s !!! dealId)]> (offers s))
        (offerCount s) (partyDeals s) (acl s)
        (events s ++ [OfferRevealed dealId sender])).

(** The loop of [areAllOffersRevealed]: the first unrevealed offer ends it. *)
Fixpoint all_revealed_loop (os : gmap N Offer) (ps : list N) : bool :=
  match ps with
  | [] => true
  | p :: rest =>
      if negb (revealed (os !!! p)) then false else all_revealed_loop os rest
  end.

Definition areAllOffersRevealed (s : State) (dealId : N) : bool :=
  let deal := deals s !!! dealId in
  if N.of_nat (length (parties deal)) =? 0 then false
  else all_revealed_loop (offers s !!! dealId) (parties deal).

Definition finalizeDeal (now : N) (dealId : N) (s : State) : Result State :=
  let deal := deals s !!! dealId in
  require (negb (finalized deal)) "Deal already finalized" ;;;
  require (negb (cancelled deal)) "Deal has been cancelled" ;;;
  require (areAllOffersRevealed s dealId) "Not all offers revealed" ;;;
  require (0 <? N.of_nat (length (parties deal))) "No offers submitted" ;;;
  let deal' :=
    mkDeal (dealName deal) (requiredParties deal) (createdAt deal)
      true (cancelled deal) (creator deal) (parties deal) in
  Ok (mkState (dealCounter s) (<[dealId := deal']> (deals s)) (offers s)
        (offerCount s) (partyDeals s) (acl s)
        (events s ++ [DealFinalized dealId now])).

Definition cancelDeal (sender : N) (dealId : N) (s : State) : Result State :=
  let deal := deals s !!! dealId in
  require (creator deal =? sender) "Only creator can cancel deal" ;;;
  require (negb (finalized deal)) "Cannot cancel finalized deal" ;;;
  require (negb (cancelled deal)) "Deal already cancelled" ;;;
  let deal' :=
    mkDeal (dealName deal) (requiredParties deal) (createdAt deal)
      (finalized deal) true (creator deal) (parties deal) in
  Ok (mkState (dealCounter s) (<[dealId := deal']> (deals s)) (offers s)
        (offerCount s) (partyDeals s) (acl s)
        (events s ++ [DealCancelled dealId sender])).

(** *** Views *)

Definition isCreator (s : State) (dealId account : N) : Result bool :=
  Ok (creator (deals s !!! dealId) =? account).

Definition getDeal (s : State) (dealId : N)
    : Result (string * list N * N * N * bool * bool * N) :=
  let deal := deals s !!! dealId in
  Ok (dealName deal, parties deal, requiredParties deal, createdAt deal,
      finalized deal, cancelled deal, creator deal).

Definition getPartyCount (s : State) (dealId : N) : Result N :=
  Ok (N.of_nat (length (parties (deals s !!! dealId)))).

Definition getDealsByParty (s : State) (who : N) : Result (list N) :=
  Ok (partyDeals s !!! who).

Definition getOfferByParty (s : State) (dealId who : N)
    : Result (N * N * N * bool * string * string) :=
  let offer := (offers s !!! dealId) !!! who in
  Ok (party offer, encryptedValue offer, timestamp offer, revealed offer,
      title offer, description offer).

Definition getOffer (s : State) (dealId who : N)
    : Result (N * N * string * string * N * bool) :=
  let offer := (offers s !!! dealId) !!! who in
  Ok (party offer, encryptedValue offer, title offer, description offer,
      timestamp offer, revealed offer).

Definition getPartyDealCount (s : State) (who : N) : Result N :=
  Ok (N.of_nat (length (partyDeals s !!! who))).

(** The getter of the public mapping [offerCount]. *)
Definition offerCountOf (s : State) (dealId : N) : Result N :=
  Ok (default 0 (offerCount s !! dealId)).

(** *** Transactions *)

Definition call (tx : Tx) (s : State) : Result State :=
  match cmd tx with
  | CreateDeal name required =>
      r <- createDeal (sender tx) (now tx) name required s ;; Ok (snd r)
  | SubmitOffer dealId input proof t d =>
      submitOffer (sender tx) (now tx) dealId input proof t d s
  | RevealOffer dealId => revealOffer (sender tx) dealId s
  | FinalizeDeal dealId => finalizeDeal (now tx) dealId s
  | CancelDeal dealId => cancelDeal (sender tx) dealId s
  end.

(** A reverted transaction changes nothing. *)
Definition exec (s : State) (tx : Tx) : State :=
  match call tx s with
  | Ok s' => s'
  | Err _ => s
  end.

Definition run (s : State) (txs : list Tx) : State := fold_left exec txs s.

(** The ids returned by the [createDeal] calls of a run, in call order. *)
Fixpoint issued (s : State) (txs : list Tx) : list N :=
  match txs with
  | [] => []
  | tx :: rest =>
      match cmd tx with
      | CreateDeal name required =>
          match createDeal (sender tx) (now tx) name required s with
          | Ok (dealId, _) => dealId :: issued (exec s tx) rest
          | Err _ => issued (exec s tx) rest
          end
      | _ => issued (exec s tx) rest
      end
  end.

(** The states the contract can be in: those a run of transactions reaches
    from the deployed contract. No account has the zero address, so no
    transaction has it as its sender. *)
Inductive reachable : State -> Prop :=
| reachable_initial : reachable initial
| reachable_exec s tx :
    reachable s -> sender tx <> 0 -> reachable (exec s tx).


(** *** Vocabulary of the properties *)

(** The four [require] messages of [createDeal]: the InvalidInput failures. *)
Definition InvalidInput (e : Error) : Prop :=
  e = RequireFailed "At least one party required" \/
  e = RequireFailed "Too many required parties" \/
  e = RequireFailed "Deal name cannot be empty" \/
  e = RequireFailed "Deal name too long".

Definition valid_creation (name : string) (required : N) : Prop :=
  1 <= required <= 100 /\
  0 < N.of_nat (String.length name) <= 256.

(** The slot of an id that [createDeal] has not issued yet holds none of the
    fields [createDeal] assigns, and was not cancelled. *)
Definition unused_slot (d : Deal) : Prop :=
  dealName d = EmptyString /\
  requiredParties d = 0 /\
  createdAt d = 0 /\
  cancelled d = false /\
  creator d = 0.

(** [offer_kept o o']: [o'] is [o] up to the [revealed] flag, which may have
    gone from [false] to [true]. *)
Definition offer_kept (o o' : Offer) : Prop :=
  party o' = party o /\
  encryptedValue o' = encryptedValue o /\
  title o' = title o /\
  description o' = description o /\
  timestamp o' = timestamp o /\
  (revealed o = true -> revealed o' = true).

(** The deal slot a call writes to, if it writes to one: the id in its
    argument, and for [createDeal] the id it is about to issue. *)
Definition target (s : State) (c : Cmd) : N :=
  match c with
  | CreateDeal _ _ => dealCounter s
  | SubmitOffer dealId _ _ _ _ => dealId
  | RevealOffer dealId => dealId
  | FinalizeDeal dealId => dealId
  | CancelDeal dealId => dealId
  end.

(** Readings of the event log: the ids of the [DealCreated] events, and the
    parties of the [OfferSubmitted] events of one deal, both in log order. *)
Definition created_ids (es : list Event) : list N :=
  omap (fun e => match e with
                 | DealCreated dealId _ _ _ => Some dealId
                 | _ => None
                 end) es.

Definition submitted_parties (dealId : N) (es : list Event) : list N :=
  omap (fun e => match e with
                 | OfferSubmitted d who _ =>
                     if decide (d = dealId) then Some who else None
                 | _ => None
                 end) es.

(** ** Reading a call's outcome *)

Lemma bind_Ok {A B : Type} (r : Result A) (k : A -> Result B) (b : B) :
  bind r k = Ok b <-> exists a, r = Ok a /\ k a = Ok b.
Proof.
  destruct r as [a|e]; simpl; split.
  - intros H. exists a. auto.
  - intros (a' & Ha & Hk). congruence.
  - discriminate.
  - intros (a' & Ha & _). discriminate.
Qed.

Lemma require_Ok (cond : bool) (reason : string) (u : unit) :
  require cond reason = Ok u <-> cond = true.
Proof.
  unfold require. destruct cond; split; intros H; try discriminate; auto.
  destruct u. reflexivity.
Qed.

Lemma require_true (reason : string) : require true reason = Ok tt.
Proof. reflexivity. Qed.

Lemma require_false (reason : string) :
  require false reason = Err (RequireFailed reason).
Proof. reflexivity. Qed.

Lemma checked_incr_Ok (x y : N) :
  checked_incr x = Ok y <-> x < MAX_UINT256 /\ y = x + 1.
Proof.
  unfold checked_incr. destruct (N.ltb_spec x MAX_UINT256); split.
  - intros [= <-]. auto.
  - intros [_ ->]. reflexivity.
  - discriminate.
  - intros [Hlt _]. lia.
Qed.

Lemma exec_Ok (s s' : State) (tx : Tx) : call tx s = Ok s' -> exec s tx = s'.
Proof. unfold exec. intros ->. reflexivity. Qed.

Lemma exec_Err (s : State) (tx : Tx) (e : Error) :
  call tx s = Err e -> exec s tx = s.
Proof. unfold exec. intros ->. reflexivity. Qed.

Lemma run_app (s : State) (txs txs' : list Tx) :
  run s (txs ++ txs') = run (run s txs) txs'.
Proof. unfold run. apply fold_left_app. Qed.

(** ** Finalization *)

Lemma all_revealed_loop_spec (os : gmap N Offer) (ps : list N) :
  all_revealed_loop os ps = true <->
  forall p, p ∈ ps -> revealed (os !!! p) = true.
Proof.
  induction ps as [|q ps IH]; simpl.
  - split; [intros _ p Hp; inversion Hp | reflexivity].
  - destruct (revealed (os !!! q)) eqn:Hq; simpl.
    + rewrite IH. split.
      * intros H p Hp. apply elem_of_cons in Hp as [->|Hp]; auto.
      * intros H p Hp. apply H. apply elem_of_cons. auto.
    + split; [discriminate|].
      intros H. rewrite <- Hq. apply H. apply elem_of_cons. auto.
Qed.

Lemma areAllOffersRevealed_spec (s : State) (dealId : N) :
  areAllOffersRevealed s dealId = true <->
  parties (deals s !!! dealId) <> [] /\
  forall p, p ∈ parties (deals s !!! dealId) ->
    revealed ((offers s !!! dealId) !!! p) = true.
Proof.
  unfold areAllOffersRevealed.
  destruct (parties (deals s !!! dealId)) as [|q ps] eqn:Hps.
  - simpl. split; [discriminate | intros [H _]; congruence].
  - replace (N.of_nat (length (q :: ps)) =? 0) with false
      by (symmetry; apply N.eqb_neq; simpl; lia).
    rewrite all_revealed_loop_spec. split; [intros H; split; [discriminate | exact H] | intros [_ H]; exact H].
Qed.

Lemma status_Open (d : Deal) :
  status d = Open <-> finalized d = false /\ cancelled d = false.
Proof.
  unfold status. destruct (finalized d), (cancelled d); split;
    (discriminate || (intros [? ?]; discriminate) || auto).
Qed.

Lemma finalizeDeal_Ok (now_ dealId : N) (s s' : State) :
  finalizeDeal now_ dealId s = Ok s' <->
  finalized (deals s !!! dealId) = false /\
  cancelled (deals s !!! dealId) = false /\
  areAllOffersRevealed s dealId = true /\
  s' = mkState (dealCounter s)
         (<[dealId := mkDeal (dealName (deals s !!! dealId))
                        (requiredParties (deals s !!! dealId))
                        (createdAt (deals s !!! dealId)) true
                        (cancelled (deals s !!! dealId))
                        (creator (deals s !!! dealId))
                        (parties (deals s !!! dealId))]> (deals s))
         (offers s) (offerCount s) (partyDeals s) (acl s)
         (events s ++ [DealFinalized dealId now_]).
Proof.
  unfold finalizeDeal.
  destruct (finalized (deals s !!! dealId)) eqn:Hf; simpl;
    [split; [discriminate | intros (? & _); discriminate]|].
  destruct (cancelled (deals s !!! dealId)) eqn:Hc; simpl;
    [split; [discriminate | intros (_ & ? & _); discriminate]|].
  destruct (areAllOffersRevealed s dealId) eqn:Ha; simpl;
    [|split; [discriminate | intros (_ & _ & ? & _); discriminate]].
  apply areAllOffersRevealed_spec in Ha as [Hne _].
  destruct (parties (deals s !!! dealId)) as [|q ps]; [congruence|].
  replace (0 <? N.of_nat (length (q :: ps))) with true
    by (symmetry; apply N.ltb_lt; simpl; lia).
  simpl. split.
  - intros [= <-]. auto.
  - intros (_ & _ & _ & ->). reflexivity.
Qed.

(** C1. [finalizeDeal] succeeds exactly when the deal is Open, its parties
    list is not empty and every party of the list has revealed; the outcome
    does not depend on the caller; the comparison with [requiredParties] is
    no part of the condition; on success the deal is Finalized. *)
Theorem finalizeDeal_succeeds_iff (s : State) (dealId caller now_ : N) :
  (succeeds (call (mkTx caller now_ (FinalizeDeal dealId)) s) <->
     status (deals s !!! dealId) = Open /\
     parties (deals s !!! dealId) <> [] /\
     (forall p, p ∈ parties (deals s !!! dealId) ->
        revealed ((offers s !!! dealId) !!! p) = true)) /\
  (forall caller' : N,
     call (mkTx caller' now_ (FinalizeDeal dealId)) s =
     call (mkTx caller now_ (FinalizeDeal dealId)) s) /\
  (forall s' : State,
     call (mkTx caller now_ (FinalizeDeal dealId)) s = Ok s' ->
     status (deals s' !!! dealId) = Finalized).
Proof.
  unfold call; simpl. split; [|split].
  - rewrite status_Open, <- areAllOffersRevealed_spec. unfold succeeds. split.
    + intros [s' H]. apply finalizeDeal_Ok in H. tauto.
    + intros [[Hf Hc] Ha]. eexists. apply finalizeDeal_Ok. eauto.
  - reflexivity.
  - intros s' H. apply finalizeDeal_Ok in H as (_ & _ & _ & ->). simpl.
    rewrite lookup_total_insert_eq. reflexivity.
Qed.

(** ** Cancellation *)

Lemma cancelDeal_Ok (caller dealId : N) (s s' : State) :
  cancelDeal caller dealId s = Ok s' <->
  creator (deals s !!! dealId) = caller /\
  finalized (deals s !!! dealId) = false /\
  cancelled (deals s !!! dealId) = false /\
  s' = mkState (dealCounter s)
         (<[dealId := mkDeal (dealName (deals s !!! dealId))
                        (requiredParties (deals s !!! dealId))
                        (createdAt (deals s !!! dealId))
                        (finalized (deals s !!! dealId)) true
                        (creator (deals s !!! dealId))
                        (parties (deals s !!! dealId))]> (deals s))
         (offers s) (offerCount s) (partyDeals s) (acl s)
         (events s ++ [DealCancelled dealId caller]).
Proof.
  unfold cancelDeal.
  destruct (N.eqb_spec (creator (deals s !!! dealId)) caller) as [Hc|Hc]; simpl;
    [|split; [discriminate | intros (? & _); contradiction]].
  destruct (finalized (deals s !!! dealId)) eqn:Hf; simpl;
    [split; [discriminate | intros (_ & ? & _); discriminate]|].
  destruct (cancelled (deals s !!! dealId)) eqn:Hx; simpl;
    [split; [discriminate | intros (_ & _ & ? & _); discriminate]|].
  split.
  - intros [= <-]. auto.
  - intros (_ & _ & _ & ->). reflexivity.
Qed.

(** C6. [cancelDeal] succeeds exactly when the caller is the deal's creator
    and the deal is Open; any other caller gets "Only creator can cancel
    deal" (Unauthorized) and the storage stays as it was; on success the deal
    is Cancelled. *)
Theorem cancelDeal_succeeds_iff (s : State) (dealId caller now_ : N) :
  (succeeds (call (mkTx caller now_ (CancelDeal dealId)) s) <->
     caller = creator (deals s !!! dealId) /\
     status (deals s !!! dealId) = Open) /\
  (caller <> creator (deals s !!! dealId) ->
     call (mkTx caller now_ (CancelDeal dealId)) s =
       Err (RequireFailed "Only creator can cancel deal") /\
     exec s (mkTx caller now_ (CancelDeal dealId)) = s) /\
  (forall s' : State,
     call (mkTx caller now_ (CancelDeal dealId)) s = Ok s' ->
     status (deals s' !!! dealId) = Cancelled).
Proof.
  split; [|split].
  - unfold call, succeeds; simpl. rewrite status_Open. split.
    + intros [s' H]. apply cancelDeal_Ok in H as (Hc & Hf & Hx & _). auto.
    + intros (Hc & Hf & Hx). eexists. apply cancelDeal_Ok. eauto.
  - intros Hne.
    assert (H : call (mkTx caller now_ (CancelDeal dealId)) s =
                Err (RequireFailed "Only creator can cancel deal")).
    { unfold call, cancelDeal; simpl.
      destruct (N.eqb_spec (creator (deals s !!! dealId)) caller);
        [congruence | reflexivity]. }
    split; [exact H | exact (exec_Err _ _ _ H)].
  - unfold call; simpl. intros s' H.
    apply cancelDeal_Ok in H as (_ & Hf & _ & ->). simpl.
    rewrite lookup_total_insert_eq. unfold status; simpl. rewrite Hf.
    reflexivity.
Qed.

(** ** Failures of finalization *)

Lemma finalizeDeal_empty_parties (now_ dealId : N) (s : State) :
  parties (deals s !!! dealId) = [] ->
  finalizeDeal now_ dealId s =
    Err (RequireFailed
           (if finalized (deals s !!! dealId) then "Deal already finalized"
            else if cancelled (deals s !!! dealId)
                 then "Deal has been cancelled"
                 else "Not all offers revealed")).
Proof.
  intros Hps. unfold finalizeDeal, areAllOffersRevealed. rewrite Hps.
  destruct (finalized (deals s !!! dealId)); simpl; [reflexivity|].
  destruct (cancelled (deals s !!! dealId)); simpl; reflexivity.
Qed.

Lemma finalizeDeal_never_NoOffers (now_ dealId : N) (s : State) :
  finalizeDeal now_ dealId s <> Err (RequireFailed "No offers submitted").
Proof.
  unfold finalizeDeal.
  destruct (finalized (deals s !!! dealId)); simpl; [discriminate|].
  destruct (cancelled (deals s !!! dealId)); simpl; [discriminate|].
  destruct (areAllOffersRevealed s dealId) eqn:Ha; simpl; [|discriminate].
  apply areAllOffersRevealed_spec in Ha as [Hne _].
  destruct (parties (deals s !!! dealId)) as [|q ps]; [congruence|].
  replace (0 <? N.of_nat (length (q :: ps))) with true
    by (symmetry; apply N.ltb_lt; simpl; lia).
  simpl. discriminate.
Qed.

(** C10 (amended). On a deal whose parties list is empty, [finalizeDeal]
    fails: with "Not all offers revealed" (RevealsIncomplete) when the deal
    is Open, because [areAllOffersRevealed] is false on an empty list and is
    checked before the emptiness guard, and with the error of the status
    guards, which come first, when the deal is finalized or cancelled. The
    "No offers submitted" (NoOffers) branch is dead: no call of the contract
    fails with it. *)
Theorem finalizeDeal_empty_parties_fails (s : State) (dealId caller now_ : N) :
  (parties (deals s !!! dealId) = [] ->
     areAllOffersRevealed s dealId = false /\
     call (mkTx caller now_ (FinalizeDeal dealId)) s =
       Err (RequireFailed
              (match status (deals s !!! dealId) with
               | Finalized => "Deal already finalized"
               | Cancelled => "Deal has been cancelled"
               | Open => "Not all offers revealed"
               end))) /\
  (forall tx : Tx, call tx s <> Err (RequireFailed "No offers submitted")).
Proof.
  split.
  - intros Hps. split.
    + unfold areAllOffersRevealed. rewrite Hps. reflexivity.
    + unfold call; simpl. rewrite finalizeDeal_empty_parties by exact Hps.
      unfold status.
      destruct (finalized (deals s !!! dealId)),
        (cancelled (deals s !!! dealId)); reflexivity.
  - intros [c t [name r|d i pr ti de|d|d|d]]; unfold call; simpl.
    + unfold createDeal, require, checked_incr, bind.
      repeat case_match; congruence.
    + unfold submitOffer, require, checked_incr, bind.
      repeat case_match; congruence.
    + unfold revealOffer, require, bind.
      repeat case_match; congruence.
    + apply finalizeDeal_never_NoOffers.
    + unfold cancelDeal, require, bind.
      repeat case_match; congruence.
Qed.

(** ** Creation *)

Lemma createDeal_Ok (caller now_ : N) (name : string) (required : N)
    (s : State) (dealId : N) (s' : State) :
  createDeal caller now_ name required s = Ok (dealId, s') <->
  valid_creation name required /\
  dealCounter s < MAX_UINT256 /\
  dealId = dealCounter s /\
  s' = mkState (dealCounter s + 1)
         (<[dealCounter s :=
              mkDeal name required now_ false false caller
                (parties (deals s !!! dealCounter s))]> (deals s))
         (offers s) (offerCount s) (partyDeals s) (acl s)
         (events s ++ [DealCreated (dealCounter s) name required caller]).
Proof.
  unfold createDeal, valid_creation, checked_incr,
    MAX_DEAL_NAME_LENGTH, MAX_PARTIES_PER_DEAL.
  destruct (N.ltb_spec 0 required); simpl;
    [|split; [discriminate | intros ([? ?] & _); lia]].
  destruct (N.leb_spec required 100); simpl;
    [|split; [discriminate | intros ([? ?] & _); lia]].
  destruct (N.ltb_spec 0 (N.of_nat (String.length name))); simpl;
    [|split; [discriminate | intros ([? ?] & _); lia]].
  destruct (N.leb_spec (N.of_nat (String.length name)) 256); simpl;
    [|split; [discriminate | intros ([? ?] & _); lia]].
  destruct (N.ltb_spec (dealCounter s) MAX_UINT256); simpl;
    [|split; [discriminate | intros (_ & ? & _); lia]].
  split.
  - intros [= <- <-]. repeat split; auto; lia.
  - intros (_ & _ & -> & ->). reflexivity.
Qed.

Lemma createDeal_invalid (caller now_ : N) (name : string) (required : N)
    (s : State) :
  ~ valid_creation name required ->
  exists e, createDeal caller now_ name required s = Err e /\ InvalidInput e.
Proof.
  unfold createDeal, valid_creation, InvalidInput,
    MAX_DEAL_NAME_LENGTH, MAX_PARTIES_PER_DEAL.
  intros Hbad.
  destruct (N.ltb_spec 0 required); simpl; [|eauto].
  destruct (N.leb_spec required 100); simpl; [|eauto 6].
  destruct (N.ltb_spec 0 (N.of_nat (String.length name))); simpl; [|eauto 6].
  destruct (N.leb_spec (N.of_nat (String.length name)) 256); simpl;
    [|eauto 7].
  exfalso. apply Hbad. lia.
Qed.

(** C7. As long as the id counter has not used up the [uint256] range,
    [createDeal] succeeds exactly when [1 <= requiredParties <= 100] and
    [0 < length name <= 256]. A name of 256 bytes with 100 required parties
    is accepted; a name of 257 bytes, 101 or 0 required parties and the
    empty name are rejected with one of the InvalidInput messages, and the
    rejected call leaves the storage, so the deals and the counter, as it
    was. *)
Theorem createDeal_succeeds_iff (s : State) (name : string) (required : N)
    (creator_ now_ : N) :
  dealCounter s < MAX_UINT256 ->
  (succeeds (createDeal creator_ now_ name required s) <->
     1 <= required <= 100 /\ 0 < N.of_nat (String.length name) <= 256) /\
  (String.length name = 256%nat -> required = 100 ->
     succeeds (createDeal creator_ now_ name required s)) /\
  (String.length name = 257%nat \/ String.length name = 0%nat \/
   required = 101 \/ required = 0 ->
     exists e,
       createDeal creator_ now_ name required s = Err e /\ InvalidInput e) /\
  (forall e,
     createDeal creator_ now_ name required s = Err e ->
     InvalidInput e /\
     exec s (mkTx creator_ now_ (CreateDeal name required)) = s /\
     dealCounter (exec s (mkTx creator_ now_ (CreateDeal name required))) =
       dealCounter s /\
     deals (exec s (mkTx creator_ now_ (CreateDeal name required))) = deals s).
Proof.
  intros Hroom.
  assert (Hiff : succeeds (createDeal creator_ now_ name required s) <->
                 valid_creation name required).
  { unfold succeeds. split.
    - intros [[dealId s'] H]. apply createDeal_Ok in H. tauto.
    - intros Hv. eexists (_, _). apply createDeal_Ok. eauto. }
  split; [exact Hiff|]. split; [|split].
  - intros Hlen ->. apply Hiff. unfold valid_creation. rewrite Hlen. lia.
  - intros Hbad. apply createDeal_invalid. unfold valid_creation. lia.
  - intros e He.
    assert (Hcall : call (mkTx creator_ now_ (CreateDeal name required)) s =
                    Err e).
    { unfold call; simpl. rewrite He. reflexivity. }
    rewrite (exec_Err _ _ _ Hcall). repeat split; auto.
    destruct (createDeal_invalid creator_ now_ name required s)
      as (e' & He' & Hinv); [|congruence].
    intros Hv. apply Hiff in Hv as [a Ha]. congruence.
Qed.

(** ** Submission and reveal *)

Lemma lookup_offers_insert (os : gmap N (gmap N Offer)) (d c : N) (o : Offer)
    (d' c' : N) :
  (<[d := <[c := o]> (os !!! d)]> os !!! d') !!! c' =
  if decide (d = d' /\ c = c') then o else (os !!! d') !!! c'.
Proof.
  destruct (decide (d = d')) as [<-|Hd].
  - rewrite lookup_total_insert_eq.
    destruct (decide (c = c')) as [<-|Hc].
    + rewrite lookup_total_insert_eq. rewrite decide_True; auto.
    + rewrite lookup_total_insert_ne by exact Hc.
      rewrite decide_False; [reflexivity | intros [_ ?]; contradiction].
  - rewrite lookup_total_insert_ne by exact Hd.
    rewrite decide_False; [reflexivity | intros [? _]; contradiction].
Qed.

Lemma submitOffer_Ok (caller now_ dealId input : N) (proof ti de : string)
    (s s' : State) :
  submitOffer caller now_ dealId input proof ti de s = Ok s' <->
  finalized (deals s !!! dealId) = false /\
  cancelled (deals s !!! dealId) = false /\
  party ((offers s !!! dealId) !!! caller) = 0 /\
  0 < N.of_nat (String.length ti) /\
  N.of_nat (length (parties (deals s !!! dealId))) < 100 /\
  default 0 (offerCount s !! dealId) < MAX_UINT256 /\
  exists handle,
    FHE_fromExternal input proof = Some handle /\
    s' = mkState (dealCounter s)
           (<[dealId := mkDeal (dealName (deals s !!! dealId))
                          (requiredParties (deals s !!! dealId))
                          (createdAt (deals s !!! dealId))
                          (finalized (deals s !!! dealId))
                          (cancelled (deals s !!! dealId))
                          (creator (deals s !!! dealId))
                          (parties (deals s !!! dealId) ++ [caller])]>
              (deals s))
           (<[dealId := <[caller := mkOffer caller handle ti de now_ false]>
                          (offers s !!! dealId)]> (offers s))
           (<[dealId := default 0 (offerCount s !! dealId) + 1]> (offerCount s))
           (<[caller := partyDeals s !!! caller ++ [dealId]]> (partyDeals s))
           (acl s ++ [(handle, this); (handle, caller)])
           (events s ++ [OfferSubmitted dealId caller ti]).
Proof.
  unfold submitOffer, checked_incr, MAX_PARTIES_PER_DEAL.
  destruct (finalized (deals s !!! dealId)) eqn:Hf; simpl;
    [split; [discriminate | intros (? & _); discriminate]|].
  destruct (cancelled (deals s !!! dealId)) eqn:Hc; simpl;
    [split; [discriminate | intros (_ & ? & _); discriminate]|].
  destruct (N.eqb_spec (party ((offers s !!! dealId) !!! caller)) 0); simpl;
    [|split; [discriminate | intros (_ & _ & ? & _); contradiction]].
  destruct (N.ltb_spec 0 (N.of_nat (String.length ti))); simpl;
    [|split; [discriminate | intros (_ & _ & _ & ? & _); lia]].
  destruct (N.ltb_spec (N.of_nat (length (parties (deals s !!! dealId)))) 100);
    simpl; [|split; [discriminate | intros (_ & _ & _ & _ & ? & _); lia]].
  destruct (FHE_fromExternal input proof) as [h|] eqn:Hh; simpl;
    [|split; [discriminate
             | intros (_ & _ & _ & _ & _ & _ & ? & ? & _); discriminate]].
  destruct (N.ltb_spec (default 0 (offerCount s !! dealId)) MAX_UINT256); simpl;
    [|split; [discriminate | intros (_ & _ & _ & _ & _ & ? & _); lia]].
  split.
  - intros [= <-]. repeat split; auto. exists h. auto.
  - intros (_ & _ & _ & _ & _ & _ & h' & [= <-] & ->). reflexivity.
Qed.

Lemma revealOffer_Ok (caller dealId : N) (s s' : State) :
  revealOffer caller dealId s = Ok s' <->
  party ((offers s !!! dealId) !!! caller) = caller /\
  revealed ((offers s !!! dealId) !!! caller) = false /\
  cancelled (deals s !!! dealId) = false /\
  s' = mkState (dealCounter s) (deals s)
         (<[dealId :=
              <[caller :=
                  mkOffer (party ((offers s !!! dealId) !!! caller))
                    (encryptedValue ((offers s !!! dealId) !!! caller))
                    (title ((offers s !!! dealId) !!! caller))
                    (description ((offers s !!! dealId) !!! caller))
                    (timestamp ((offers s !!! dealId) !!! caller)) true]>
                (offers s !!! dealId)]> (offers s))
         (offerCount s) (partyDeals s) (acl s)
         (events s ++ [OfferRevealed dealId caller]).
Proof.
  unfold revealOffer.
  destruct (N.eqb_spec (party ((offers s !!! dealId) !!! caller)) caller);
    simpl; [|split; [discriminate | intros (? & _); contradiction]].
  destruct (revealed ((offers s !!! dealId) !!! caller)) eqn:Hr; simpl;
    [split; [discriminate | intros (_ & ? & _); discriminate]|].
  destruct (cancelled (deals s !!! dealId)) eqn:Hc; simpl;
    [split; [discriminate | intros (_ & _ & ? & _); discriminate]|].
  split.
  - intros [= <-]. auto.
  - intros (_ & _ & _ & ->). reflexivity.
Qed.

(** Inversion of a successful call: the guards that held and the storage
    that resulted, by command. *)
Ltac call_inv H :=
  unfold call in H; cbn [cmd sender now] in H;
  lazymatch type of H with
  | bind (createDeal _ _ _ _ _) _ = Ok _ =>
      let r := fresh "r" in
      let E := fresh "E" in
      apply bind_Ok in H as ([? ?] & H & E);
      cbn [snd] in E; injection E as <-;
      apply createDeal_Ok in H as (? & ? & -> & ->)
  | submitOffer _ _ _ _ _ _ _ _ = Ok _ =>
      apply submitOffer_Ok in H as (? & ? & ? & ? & ? & ? & ? & ? & ->)
  | revealOffer _ _ _ = Ok _ =>
      apply revealOffer_Ok in H as (? & ? & ? & ->)
  | finalizeDeal _ _ _ = Ok _ =>
      apply finalizeDeal_Ok in H as (? & ? & ? & ->)
  | cancelDeal _ _ _ = Ok _ =>
      apply cancelDeal_Ok in H as (? & ? & ? & ->)
  end.

(** Case analysis on one transaction: it reverted, or it is one of the five
    calls with its guards and its effect known. *)
Ltac exec_cases s tx :=
  let H := fresh "Hcall" in
  unfold exec;
  destruct (call tx s) as [?s'|?e] eqn:H;
  [ destruct tx as [?c ?t [?name ?req|?d ?input ?proof ?ti ?de|?d|?d|?d]];
    call_inv H; cbn [dealCounter deals offers offerCount partyDeals acl events]
  | ].

Lemma dealCounter_exec (s : State) (tx : Tx) :
  dealCounter s <= dealCounter (exec s tx).
Proof. exec_cases s tx; lia. Qed.

Lemma dealCounter_run (s : State) (txs : list Tx) :
  dealCounter s <= dealCounter (run s txs).
Proof.
  revert s. induction txs as [|tx txs IH]; intros s; simpl; [lia|].
  etransitivity; [apply (dealCounter_exec s tx) | apply IH].
Qed.

(** *** What a transaction leaves alone *)

(** A deal that was created and has left the Open status is not written to
    by any transaction. *)
Lemma terminal_deal_exec (s : State) (tx : Tx) (dealId : N) :
  dealId < dealCounter s ->
  status (deals s !!! dealId) <> Open ->
  deals (exec s tx) !!! dealId = deals s !!! dealId.
Proof.
  intros Hlt Hst. rewrite status_Open in Hst.
  exec_cases s tx; try reflexivity;
    match goal with
    | |- <[?k := _]> _ !!! _ = _ =>
        destruct (decide (k = dealId)) as [Heq|Hne];
        [ try subst dealId; try (exfalso; lia); exfalso; apply Hst; auto
        | rewrite lookup_total_insert_ne by exact Hne; reflexivity ]
    end.
Qed.

Lemma terminal_deal_run (s : State) (txs : list Tx) (dealId : N) :
  dealId < dealCounter s ->
  status (deals s !!! dealId) <> Open ->
  deals (run s txs) !!! dealId = deals s !!! dealId.
Proof.
  revert s. induction txs as [|tx txs IH]; intros s Hlt Hst; simpl;
    [reflexivity|].
  pose proof (terminal_deal_exec s tx dealId Hlt Hst) as Hstep.
  rewrite <- Hstep. apply IH.
  - pose proof (dealCounter_exec s tx). lia.
  - rewrite Hstep. exact Hst.
Qed.

(** The offer of an account other than the zero address is written once:
    later transactions change nothing of it but the [revealed] flag. *)
Lemma offer_kept_refl (o : Offer) : offer_kept o o.
Proof. unfold offer_kept. auto 10. Qed.

Lemma offer_kept_trans (o1 o2 o3 : Offer) :
  offer_kept o1 o2 -> offer_kept o2 o3 -> offer_kept o1 o3.
Proof. unfold offer_kept. intuition congruence. Qed.

Lemma offer_kept_exec (s : State) (tx : Tx) (dealId who : N) :
  party ((offers s !!! dealId) !!! who) <> 0 ->
  offer_kept ((offers s !!! dealId) !!! who)
    ((offers (exec s tx) !!! dealId) !!! who).
Proof.
  intros Hparty.
  exec_cases s tx; try apply offer_kept_refl;
    rewrite lookup_offers_insert; case_decide as Hk;
    try apply offer_kept_refl; destruct Hk as [-> ->].
  - contradiction.
  - unfold offer_kept; simpl. auto 10.
Qed.

Lemma offer_kept_run (s : State) (txs : list Tx) (dealId who : N) :
  party ((offers s !!! dealId) !!! who) <> 0 ->
  offer_kept ((offers s !!! dealId) !!! who)
    ((offers (run s txs) !!! dealId) !!! who).
Proof.
  revert s. induction txs as [|tx txs IH]; intros s Hparty; simpl;
    [apply offer_kept_refl|].
  pose proof (offer_kept_exec s tx dealId who Hparty) as Hstep.
  eapply offer_kept_trans; [exact Hstep|]. apply IH.
  destruct Hstep as [-> _]. exact Hparty.
Qed.

(** *** Invariants of the reachable states *)

Lemma unissued_slots (s : State) :
  reachable s ->
  forall dealId, dealCounter s <= dealId -> unused_slot (deals s !!! dealId).
Proof.
  induction 1 as [|s tx Hs IH Hsender]; intros dealId Hle.
  - simpl. rewrite lookup_total_empty. repeat split.
  - revert Hle.
    exec_cases s tx; simpl in Hsender; intros Hle; try (apply IH; exact Hle).
    + rewrite lookup_total_insert_ne by lia. apply IH. lia.
    + destruct (decide (d = dealId)) as [->|Hne];
        [rewrite lookup_total_insert_eq; apply (IH dealId Hle)
        |rewrite lookup_total_insert_ne by exact Hne; apply IH; exact Hle].
    + destruct (decide (d = dealId)) as [->|Hne];
        [rewrite lookup_total_insert_eq; apply (IH dealId Hle)
        |rewrite lookup_total_insert_ne by exact Hne; apply IH; exact Hle].
    + destruct (decide (d = dealId)) as [->|Hne];
        [|rewrite lookup_total_insert_ne by exact Hne; apply IH; exact Hle].
      destruct (IH dealId Hle) as (_ & _ & _ & _ & Hcr). congruence.
Qed.

Lemma flags_exclusive (s : State) :
  reachable s ->
  forall dealId,
    ~ (finalized (deals s !!! dealId) = true /\
       cancelled (deals s !!! dealId) = true).
Proof.
  induction 1 as [|s tx Hs IH Hsender]; intros dealId.
  - simpl. rewrite lookup_total_empty. simpl. intros [? _]. discriminate.
  - exec_cases s tx; try apply IH;
      match goal with
      | |- context [<[?k := _]> _ !!! _] =>
          destruct (decide (k = dealId)) as [Heq|Hne];
          [ try subst dealId; rewrite ?Heq, lookup_total_insert_eq; simpl;
            intros [? ?]; congruence
          | rewrite lookup_total_insert_ne by exact Hne; apply IH ]
      end.
Qed.

Lemma offerCount_parties (s : State) :
  reachable s ->
  forall dealId,
    default 0 (offerCount s !! dealId) =
      N.of_nat (length (parties (deals s !!! dealId))) /\
    N.of_nat (length (parties (deals s !!! dealId))) <= 100.
Proof.
  induction 1 as [|s tx Hs IH Hsender]; intros dealId.
  - simpl. rewrite lookup_total_empty, lookup_empty. simpl.
    split; [reflexivity | lia].
  - exec_cases s tx; try apply IH;
      match goal with
      | |- context [<[?k := _]> (deals _) !!! _] =>
          destruct (decide (k = dealId)) as [Heq|Hne];
          [ try subst dealId;
            rewrite ?Heq, ?lookup_insert_eq, !lookup_total_insert_eq; simpl
          | rewrite ?lookup_insert_ne by exact Hne;
            rewrite !lookup_total_insert_ne by exact Hne; apply IH ]
      end; try apply IH.
  rewrite length_app, Nat2N.inj_add. simpl.
  destruct (IH d) as [-> _]. lia.
Qed.

Lemma reachable_run (s : State) (txs : list Tx) :
  reachable s -> Forall (fun tx => sender tx <> 0) txs ->
  reachable (run s txs).
Proof.
  intros Hs Htxs. revert s Hs.
  induction Htxs as [|tx txs Htx _ IH]; intros s Hs; simpl; [exact Hs|].
  apply IH. apply reachable_exec; assumption.
Qed.

(** ** Terminal statuses *)

(** C4 (amended). In every reachable state the two flags of a deal are never
    both set. For a deal that [createDeal] has issued, once it is finalized
    or cancelled no later transaction clears the flag, sets the other one or
    appends to its parties list. *)
Theorem terminal_status_is_final (s : State) :
  reachable s ->
  (forall dealId,
     ~ (finalized (deals s !!! dealId) = true /\
        cancelled (deals s !!! dealId) = true)) /\
  (forall dealId txs,
     dealId < dealCounter s ->
     status (deals s !!! dealId) <> Open ->
     finalized (deals (run s txs) !!! dealId) =
       finalized (deals s !!! dealId) /\
     cancelled (deals (run s txs) !!! dealId) =
       cancelled (deals s !!! dealId) /\
     parties (deals (run s txs) !!! dealId) =
       parties (deals s !!! dealId)).
Proof.
  intros Hs. split.
  - apply flags_exclusive. exact Hs.
  - intros dealId txs Hlt Hst.
    rewrite (terminal_deal_run s txs dealId Hlt Hst). auto.
Qed.

(** ** Reading a deal *)

(** C8 (amended). [getDeal] never fails. For an id that [createDeal] has not
    issued ([dealCounter s <= dealId], see [issued_iff]) it returns the record of the untouched slot: the empty name, zero
    [requiredParties], [createdAt] and [creator], and [cancelled = false],
    together with the parties and the [finalized] flag the slot holds. *)
Theorem getDeal_unissued_id (s : State) (dealId : N) :
  reachable s ->
  dealCounter s <= dealId ->
  getDeal s dealId =
    Ok (EmptyString, parties (deals s !!! dealId), 0, 0,
        finalized (deals s !!! dealId), false, 0).
Proof.
  intros Hs Hle. unfold getDeal.
  destruct (unissued_slots s Hs dealId Hle) as (-> & -> & -> & -> & ->).
  reflexivity.
Qed.

(** ** Deal ids *)

Lemma exec_createDeal (s s' : State) (caller now_ : N) (name : string)
    (required dealId : N) :
  createDeal caller now_ name required s = Ok (dealId, s') ->
  exec s (mkTx caller now_ (CreateDeal name required)) = s'.
Proof.
  intros H. apply exec_Ok. unfold call; simpl. rewrite H. reflexivity.
Qed.

Lemma issued_bounds (s : State) (txs : list Tx) :
  Forall (fun dealId => dealCounter s <= dealId < dealCounter (run s txs))
    (issued s txs).
Proof.
  revert s. induction txs as [|tx txs IH]; intros s; simpl; [constructor|].
  assert (Hrest : Forall (fun dealId =>
                    dealCounter s <= dealId < dealCounter (run (exec s tx) txs))
                    (issued (exec s tx) txs)).
  { eapply Forall_impl; [apply IH|]. simpl. intros dealId Hb.
    pose proof (dealCounter_exec s tx). lia. }
  destruct tx as [c t [name req|d i pr ti de|d|d|d]]; simpl; try exact Hrest.
  destruct (createDeal c t name req s) as [[dealId s']|e] eqn:Hc;
    [|exact Hrest].
  constructor; [|exact Hrest].
  rewrite (exec_createDeal _ _ _ _ _ _ _ Hc).
  apply createDeal_Ok in Hc as (_ & _ & -> & ->).
  pose proof (dealCounter_run
    (mkState (dealCounter s + 1)
       (<[dealCounter s := mkDeal name req t false false c
                             (parties (deals s !!! dealCounter s))]> (deals s))
       (offers s) (offerCount s) (partyDeals s) (acl s)
       (events s ++ [DealCreated (dealCounter s) name req c])) txs) as Hmono.
  simpl in Hmono. lia.
Qed.

Lemma issued_sorted (s : State) (txs : list Tx) :
  StronglySorted N.lt (issued s txs).
Proof.
  revert s. induction txs as [|tx txs IH]; intros s; simpl; [constructor|].
  destruct tx as [c t [name req|d i pr ti de|d|d|d]]; simpl; try apply IH.
  destruct (createDeal c t name req s) as [[dealId s']|e] eqn:Hc;
    [|apply IH].
  constructor; [apply IH|].
  eapply Forall_impl; [apply issued_bounds|]. simpl. intros later Hb.
  rewrite (exec_createDeal _ _ _ _ _ _ _ Hc) in Hb.
  apply createDeal_Ok in Hc as (_ & _ & -> & ->). simpl in Hb. lia.
Qed.

Lemma issued_app (s : State) (txs txs' : list Tx) :
  issued s (txs ++ txs') = issued s txs ++ issued (run s txs) txs'.
Proof.
  revert s. induction txs as [|tx txs IH]; intros s; simpl; [reflexivity|].
  destruct (cmd tx); try apply IH.
  destruct (createDeal _ _ _ _ _) as [[dealId s']|e]; simpl;
    rewrite IH; reflexivity.
Qed.

(** The issued ids are exactly the ids the counter has passed: an id is below
    [dealCounter] just when some [createDeal] returned it. *)
Lemma issued_complete (s : State) (txs : list Tx) (dealId : N) :
  dealCounter s <= dealId < dealCounter (run s txs) ->
  dealId ∈ issued s txs.
Proof.
  revert s. induction txs as [|tx txs IH]; intros s; simpl; [lia|].
  intros Hb.
  destruct (decide (dealCounter (exec s tx) <= dealId)) as [Hle|Hgt].
  { assert (Hin : dealId ∈ issued (exec s tx) txs) by (apply IH; lia).
    destruct (cmd tx); try exact Hin.
    destruct (createDeal _ _ _ _ _) as [[? ?]|?]; [right|]; exact Hin. }
  revert Hgt. unfold exec at 1.
  destruct (call tx s) as [s'|e] eqn:Hcall; [|lia].
  destruct tx as [c t [name req|d i pr ti de|d|d|d]];
    try (call_inv Hcall; simpl; lia).
  unfold call in Hcall; simpl in Hcall.
  simpl. destruct (createDeal c t name req s) as [[issuedId s1]|e] eqn:Hc;
    [|discriminate].
  simpl in Hcall. injection Hcall as ->.
  apply createDeal_Ok in Hc as (_ & _ & -> & ->). simpl. intros Hgt.
  replace dealId with (dealCounter s) by lia. left.
Qed.

Lemma issued_iff (txs : list Tx) (dealId : N) :
  dealId ∈ issued initial txs <-> dealId < dealCounter (run initial txs).
Proof.
  split.
  - intros Hin. pose proof (issued_bounds initial txs) as Hb.
    rewrite Forall_forall in Hb. apply (Hb dealId Hin).
  - intros Hlt. apply issued_complete. simpl. lia.
Qed.

Lemma StronglySorted_lt_NoDup (l : list N) :
  StronglySorted N.lt l -> NoDup l.
Proof.
  induction 1 as [|x l Hl IH Hx]; constructor; [|exact IH].
  intros Hin. rewrite Forall_forall in Hx.
  specialize (Hx x Hin). lia.
Qed.

(** C9. The ids returned by the successful [createDeal] calls of any run of
    transactions are strictly increasing in call order, hence pairwise
    distinct, and no call of a later run returns one of them again. *)
Theorem issued_ids_strictly_increasing (s : State) (txs : list Tx) :
  StronglySorted N.lt (issued s txs) /\
  NoDup (issued s txs) /\
  (forall (txs' : list Tx) (dealId : N),
     dealId ∈ issued s txs -> dealId ∉ issued (run s txs) txs').
Proof.
  split; [apply issued_sorted|]. split.
  - apply StronglySorted_lt_NoDup, issued_sorted.
  - intros txs' dealId Hin Hin'.
    pose proof (issued_bounds s txs) as Hb.
    pose proof (issued_bounds (run s txs) txs') as Hb'.
    rewrite Forall_forall in Hb, Hb'.
    specialize (Hb dealId Hin). specialize (Hb' dealId Hin'). lia.
Qed.

(** ** Reveal *)

Lemma revealOffer_revealed (caller dealId : N) (s : State) :
  party ((offers s !!! dealId) !!! caller) = caller ->
  revealed ((offers s !!! dealId) !!! caller) = true ->
  revealOffer caller dealId s = Err (RequireFailed "Offer already revealed").
Proof.
  intros Hp Hr. unfold revealOffer. rewrite Hp, Hr, N.eqb_refl. reflexivity.
Qed.

Lemma revealOffer_post (caller dealId : N) (s s' : State) :
  revealOffer caller dealId s = Ok s' ->
  party ((offers s' !!! dealId) !!! caller) = caller /\
  revealed ((offers s' !!! dealId) !!! caller) = true.
Proof.
  intros H. apply revealOffer_Ok in H as (Hp & _ & _ & ->). simpl.
  rewrite lookup_offers_insert, decide_True by auto. simpl. auto.
Qed.

(** C2. [revealOffer] succeeds exactly when the slot of (dealId, caller)
    holds the caller's offer, the offer is not revealed yet and the deal is
    not cancelled; the [finalized] flag is not looked at, so the call goes
    through on a finalized deal that is not cancelled. On success the offer
    is revealed, and from then on, whatever transactions come in between,
    another [revealOffer] of the same caller on the same deal fails with
    "Offer already revealed" and leaves the storage as it was. *)
Theorem revealOffer_succeeds_iff (s : State) (dealId caller now_ : N) :
  caller <> 0 ->
  (succeeds (call (mkTx caller now_ (RevealOffer dealId)) s) <->
     party ((offers s !!! dealId) !!! caller) = caller /\
     revealed ((offers s !!! dealId) !!! caller) = false /\
     cancelled (deals s !!! dealId) = false) /\
  (party ((offers s !!! dealId) !!! caller) = caller ->
   revealed ((offers s !!! dealId) !!! caller) = false ->
   finalized (deals s !!! dealId) = true ->
   cancelled (deals s !!! dealId) = false ->
     succeeds (call (mkTx caller now_ (RevealOffer dealId)) s)) /\
  (forall s' : State,
     call (mkTx caller now_ (RevealOffer dealId)) s = Ok s' ->
     revealed ((offers s' !!! dealId) !!! caller) = true /\
     forall (txs : list Tx) (later : N),
       call (mkTx caller later (RevealOffer dealId)) (run s' txs) =
         Err (RequireFailed "Offer already revealed") /\
       exec (run s' txs) (mkTx caller later (RevealOffer dealId)) =
         run s' txs).
Proof.
  intros Hcaller.
  assert (Hiff : succeeds (call (mkTx caller now_ (RevealOffer dealId)) s) <->
     party ((offers s !!! dealId) !!! caller) = caller /\
     revealed ((offers s !!! dealId) !!! caller) = false /\
     cancelled (deals s !!! dealId) = false).
  { unfold call, succeeds; simpl. split.
    - intros [s' H]. apply revealOffer_Ok in H. tauto.
    - intros (Hp & Hr & Hc). eexists. apply revealOffer_Ok. eauto. }
  split; [exact Hiff|]. split.
  - intros Hp Hr _ Hc. apply Hiff. auto.
  - intros s' H. unfold call in H; simpl in H.
    destruct (revealOffer_post _ _ _ _ H) as [Hp' Hr'].
    split; [exact Hr'|]. intros txs later.
    destruct (offer_kept_run s' txs dealId caller)
      as (Hp'' & _ & _ & _ & _ & Hr''); [congruence|].
    assert (Hfail : call (mkTx caller later (RevealOffer dealId))
                      (run s' txs) =
                    Err (RequireFailed "Offer already revealed")).
    { unfold call; simpl. apply revealOffer_revealed; [congruence | auto]. }
    split; [exact Hfail | exact (exec_Err _ _ _ Hfail)].
Qed.

(** ** Submission *)

(** C3 (amended). [submitOffer] does not check that the deal was created. On
    an id that [createDeal] has not issued ([dealCounter s <= dealId], see
    [issued_iff]) it is decided by its other guards alone: it succeeds exactly when the slot is not finalized, the caller has
    no offer there, the title is not empty, the slot has fewer than 100
    parties and the FHE library accepts the input. On success the Offer
    record, the parties entry and the party-deals index entry are created
    for that id; a failed call leaves the storage as it was. *)
Theorem submitOffer_unissued_id (s : State) (dealId caller now_ input : N)
    (proof ti de : string) :
  reachable s ->
  dealCounter s <= dealId ->
  (succeeds (call (mkTx caller now_ (SubmitOffer dealId input proof ti de)) s)
   <->
     finalized (deals s !!! dealId) = false /\
     party ((offers s !!! dealId) !!! caller) = 0 /\
     0 < N.of_nat (String.length ti) /\
     N.of_nat (length (parties (deals s !!! dealId))) < 100 /\
     is_Some (FHE_fromExternal input proof)) /\
  (forall s' : State,
     call (mkTx caller now_ (SubmitOffer dealId input proof ti de)) s = Ok s' ->
     party ((offers s' !!! dealId) !!! caller) = caller /\
     title ((offers s' !!! dealId) !!! caller) = ti /\
     revealed ((offers s' !!! dealId) !!! caller) = false /\
     parties (deals s' !!! dealId) = parties (deals s !!! dealId) ++ [caller] /\
     partyDeals s' !!! caller = partyDeals s !!! caller ++ [dealId]) /\
  (forall e : Error,
     call (mkTx caller now_ (SubmitOffer dealId input proof ti de)) s = Err e ->
     exec s (mkTx caller now_ (SubmitOffer dealId input proof ti de)) = s).
Proof.
  intros Hs Hle. split; [|split].
  - unfold call, succeeds; simpl. split.
    + intros [s' H].
      apply submitOffer_Ok in H as (? & ? & ? & ? & ? & ? & h & ? & _).
      repeat split; eauto.
    + intros (Hf & Hp & Hti & Hn & [h Hh]).
      destruct (unissued_slots s Hs dealId Hle) as (_ & _ & _ & Hc & _).
      destruct (offerCount_parties s Hs dealId) as [Hcount Hbound].
      eexists. apply submitOffer_Ok. repeat split; eauto.
      rewrite Hcount. unfold MAX_UINT256. lia.
  - intros s' H. unfold call in H; simpl in H.
    apply submitOffer_Ok in H as (_ & _ & _ & _ & _ & _ & h & _ & ->). simpl.
    rewrite lookup_offers_insert, decide_True by auto.
    rewrite !lookup_total_insert_eq. simpl. auto.
  - intros e H. exact (exec_Err _ _ _ H).
Qed.

Lemma submitOffer_post (caller now_ dealId input : N) (proof ti de : string)
    (s s' : State) :
  submitOffer caller now_ dealId input proof ti de s = Ok s' ->
  party ((offers s' !!! dealId) !!! caller) = caller.
Proof.
  intros H.
  apply submitOffer_Ok in H as (_ & _ & _ & _ & _ & _ & h & _ & ->). simpl.
  rewrite lookup_offers_insert, decide_True by auto. reflexivity.
Qed.

Lemma submitOffer_again (caller now_ dealId input : N) (proof ti de : string)
    (s : State) :
  party ((offers s !!! dealId) !!! caller) <> 0 ->
  submitOffer caller now_ dealId input proof ti de s =
    Err (RequireFailed
           (match status (deals s !!! dealId) with
            | Finalized => "Deal already finalized"
            | Cancelled => "Deal has been cancelled"
            | Open => "Offer already submitted"
            end)).
Proof.
  intros Hp. unfold submitOffer, status.
  destruct (finalized (deals s !!! dealId)); simpl; [reflexivity|].
  destruct (cancelled (deals s !!! dealId)); simpl; [reflexivity|].
  destruct (N.eqb_spec (party ((offers s !!! dealId) !!! caller)) 0);
    [contradiction | reflexivity].
Qed.

(** C5 (amended). For every pair (dealId, party) at most one [submitOffer]
    ever succeeds: after a successful one, whatever transactions come in
    between, every further [submitOffer] of the same party on the same deal
    fails and leaves the storage, so the Offer record, the parties list and
    the offer count, as it was. The failure is "Offer already submitted"
    (DuplicateOffer) while the deal is Open; once the deal is finalized or
    cancelled the status guards, which are checked first, answer instead. *)
Theorem submitOffer_at_most_once (s s1 : State) (dealId caller now_ input : N)
    (proof ti de : string) :
  caller <> 0 ->
  call (mkTx caller now_ (SubmitOffer dealId input proof ti de)) s = Ok s1 ->
  forall (txs : list Tx) (later input' : N) (proof' ti' de' : string),
    call (mkTx caller later (SubmitOffer dealId input' proof' ti' de'))
      (run s1 txs) =
      Err (RequireFailed
             (match status (deals (run s1 txs) !!! dealId) with
              | Finalized => "Deal already finalized"
              | Cancelled => "Deal has been cancelled"
              | Open => "Offer already submitted"
              end)) /\
    exec (run s1 txs)
      (mkTx caller later (SubmitOffer dealId input' proof' ti' de')) =
      run s1 txs /\
    offer_kept ((offers s1 !!! dealId) !!! caller)
      ((offers (run s1 txs) !!! dealId) !!! caller).
Proof.
  intros Hcaller Hfirst txs later input' proof' ti' de'.
  unfold call in Hfirst; simpl in Hfirst.
  pose proof (submitOffer_post _ _ _ _ _ _ _ _ _ Hfirst) as Hp.
  assert (Hkept : offer_kept ((offers s1 !!! dealId) !!! caller)
                    ((offers (run s1 txs) !!! dealId) !!! caller))
    by (apply offer_kept_run; congruence).
  assert (Hfail :
    call (mkTx caller later (SubmitOffer dealId input' proof' ti' de'))
      (run s1 txs) =
      Err (RequireFailed
             (match status (deals (run s1 txs) !!! dealId) with
              | Finalized => "Deal already finalized"
              | Cancelled => "Deal has been cancelled"
              | Open => "Offer already submitted"
              end))).
  { unfold call; simpl. apply submitOffer_again.
    destruct Hkept as [-> _]. congruence. }
  split; [exact Hfail|]. split; [exact (exec_Err _ _ _ Hfail) | exact Hkept].
Qed.

(** ** Offers and parties in lockstep *)

Lemma initial_offer (dealId who : N) :
  (offers initial !!! dealId) !!! who = inhabitant.
Proof. reflexivity. Qed.

(** A written offer slot belongs to the account of its key, and that account
    is in the parties list of the deal. *)
Lemma offer_party_listed (s : State) :
  reachable s ->
  forall dealId who,
    party ((offers s !!! dealId) !!! who) <> 0 ->
    party ((offers s !!! dealId) !!! who) = who /\
    who ∈ parties (deals s !!! dealId).
Proof.
  induction 1 as [|s tx Hs IH Hsender]; intros dealId who.
  - rewrite initial_offer. simpl. congruence.
  - exec_cases s tx; try apply IH.
    + intros Hp. destruct (IH dealId who Hp) as [Hw Hin]. split; [exact Hw|].
      destruct (decide (dealCounter s = dealId)) as [<-|Hne];
        [rewrite lookup_total_insert_eq; exact Hin
        |rewrite lookup_total_insert_ne by exact Hne; exact Hin].
    + rewrite lookup_offers_insert. case_decide as Hk.
      * destruct Hk as [-> ->]. intros _. split; [reflexivity|].
        rewrite lookup_total_insert_eq. simpl.
        apply elem_of_app. right. apply list_elem_of_singleton. reflexivity.
      * intros Hp. destruct (IH dealId who Hp) as [Hw Hin].
        split; [exact Hw|].
        destruct (decide (d = dealId)) as [->|Hne];
          [rewrite lookup_total_insert_eq; simpl; apply elem_of_app; auto
          |rewrite lookup_total_insert_ne by exact Hne; exact Hin].
    + rewrite lookup_offers_insert. case_decide as Hk; [|apply IH].
      destruct Hk as [-> ->]. simpl. apply IH.
    + intros Hp. destruct (IH dealId who Hp) as [Hw Hin]. split; [exact Hw|].
      destruct (decide (d = dealId)) as [->|Hne];
        [rewrite lookup_total_insert_eq; exact Hin
        |rewrite lookup_total_insert_ne by exact Hne; exact Hin].
    + intros Hp. destruct (IH dealId who Hp) as [Hw Hin]. split; [exact Hw|].
      destruct (decide (d = dealId)) as [->|Hne];
        [rewrite lookup_total_insert_eq; exact Hin
        |rewrite lookup_total_insert_ne by exact Hne; exact Hin].
Qed.

(** While a deal is finalized, every party of its list has revealed. *)
Lemma finalized_all_revealed (s : State) :
  reachable s ->
  forall dealId,
    finalized (deals s !!! dealId) = true ->
    forall p, p ∈ parties (deals s !!! dealId) ->
      revealed ((offers s !!! dealId) !!! p) = true.
Proof.
  induction 1 as [|s tx Hs IH Hsender]; intros dealId.
  - simpl. rewrite lookup_total_empty. discriminate.
  - exec_cases s tx; try apply IH.
    + destruct (decide (dealCounter s = dealId)) as [<-|Hne];
        [rewrite lookup_total_insert_eq; discriminate
        |rewrite lookup_total_insert_ne by exact Hne; apply IH].
    + destruct (decide (d = dealId)) as [->|Hne].
      * rewrite lookup_total_insert_eq. simpl. congruence.
      * rewrite lookup_total_insert_ne by exact Hne. intros Hf p Hin.
        rewrite lookup_offers_insert, decide_False by tauto.
        apply IH; assumption.
    + intros Hf p Hin. rewrite lookup_offers_insert.
      case_decide as Hk; [reflexivity | apply IH; assumption].
    + destruct (decide (d = dealId)) as [->|Hne].
      * rewrite lookup_total_insert_eq. simpl. intros _.
        apply areAllOffersRevealed_spec. assumption.
      * rewrite lookup_total_insert_ne by exact Hne. apply IH.
    + destruct (decide (d = dealId)) as [->|Hne].
      * rewrite lookup_total_insert_eq. simpl. apply IH.
      * rewrite lookup_total_insert_ne by exact Hne. apply IH.
Qed.

(** So the guards of [revealOffer] do not reject a finalized deal, but in a
    reachable state no account has anything left to reveal on one. *)
Lemma revealOffer_finalized_fails (s : State) (dealId caller now_ : N) :
  reachable s ->
  caller <> 0 ->
  finalized (deals s !!! dealId) = true ->
  ~ succeeds (call (mkTx caller now_ (RevealOffer dealId)) s).
Proof.
  intros Hs Hcaller Hf [s' H]. unfold call in H; simpl in H.
  apply revealOffer_Ok in H as (Hp & Hr & _ & _).
  destruct (offer_party_listed s Hs dealId caller) as [_ Hin]; [congruence|].
  rewrite (finalized_all_revealed s Hs dealId Hf caller Hin) in Hr.
  discriminate.
Qed.

(** ** Further properties of the contract *)

(** *** Lists only grow *)

Lemma parties_prefix_exec (s : State) (tx : Tx) (dealId : N) :
  parties (deals s !!! dealId) `prefix_of`
    parties (deals (exec s tx) !!! dealId).
Proof.
  exec_cases s tx; try reflexivity;
    match goal with
    | |- _ `prefix_of` parties (<[?k := _]> _ !!! _) =>
        destruct (decide (k = dealId)) as [Heq|Hne];
        [ rewrite <- ?Heq, lookup_total_insert_eq; simpl;
          try reflexivity; apply prefix_app_r; reflexivity
        | rewrite lookup_total_insert_ne by exact Hne; reflexivity ]
    end.
Qed.

Lemma partyDeals_prefix_exec (s : State) (tx : Tx) (who : N) :
  partyDeals s !!! who `prefix_of` partyDeals (exec s tx) !!! who.
Proof.
  exec_cases s tx; try reflexivity.
  destruct (decide (c = who)) as [->|Hne];
    [ rewrite lookup_total_insert_eq; apply prefix_app_r; reflexivity
    | rewrite lookup_total_insert_ne by exact Hne; reflexivity ].
Qed.

(** X1. The parties list of a deal and the deal index of an account are
    append-only: whatever transactions run, the earlier list is a prefix of
    the later one, so nothing is removed or reordered and the counts read by
    [getPartyCount] and [getPartyDealCount] never go down. *)
Theorem lists_append_only (s : State) (txs : list Tx) (dealId who : N) :
  parties (deals s !!! dealId) `prefix_of`
    parties (deals (run s txs) !!! dealId) /\
  partyDeals s !!! who `prefix_of` partyDeals (run s txs) !!! who.
Proof.
  revert s. induction txs as [|tx txs IH]; intros s; simpl;
    [split; reflexivity|].
  destruct (IH (exec s tx)) as [Hp Hd]. split.
  - etransitivity; [apply parties_prefix_exec | exact Hp].
  - etransitivity; [apply partyDeals_prefix_exec | exact Hd].
Qed.

(** *** Deals do not interfere *)

(** X2. A call leaves every deal slot other than its target as it was: the
    deal record, the offers and the offer count of another id are not
    written. [createDeal] writes only the slot of the id it issues. *)
Theorem other_deals_untouched (s : State) (tx : Tx) (dealId : N) :
  target s (cmd tx) <> dealId ->
  deals (exec s tx) !!! dealId = deals s !!! dealId /\
  offers (exec s tx) !!! dealId = offers s !!! dealId /\
  offerCountOf (exec s tx) dealId = offerCountOf s dealId.
Proof.
  unfold offerCountOf. intros Ht.
  exec_cases s tx; simpl in Ht;
    rewrite ?lookup_insert_ne by exact Ht;
    rewrite ?lookup_total_insert_ne by exact Ht; auto.
Qed.

(** *** The header of a deal *)

Lemma deal_header_exec (s : State) (tx : Tx) (dealId : N) :
  dealId < dealCounter s ->
  dealName (deals (exec s tx) !!! dealId) = dealName (deals s !!! dealId) /\
  requiredParties (deals (exec s tx) !!! dealId) =
    requiredParties (deals s !!! dealId) /\
  createdAt (deals (exec s tx) !!! dealId) = createdAt (deals s !!! dealId) /\
  creator (deals (exec s tx) !!! dealId) = creator (deals s !!! dealId).
Proof.
  intros Hlt.
  exec_cases s tx; auto;
    match goal with
    | |- context [<[?k := _]> _ !!! _] =>
        destruct (decide (k = dealId)) as [Heq|Hne];
        [ try (exfalso; lia); subst; rewrite lookup_total_insert_eq; auto
        | rewrite lookup_total_insert_ne by exact Hne; auto ]
    end.
Qed.

Lemma deal_header_run (s : State) (txs : list Tx) (dealId : N) :
  dealId < dealCounter s ->
  dealName (deals (run s txs) !!! dealId) = dealName (deals s !!! dealId) /\
  requiredParties (deals (run s txs) !!! dealId) =
    requiredParties (deals s !!! dealId) /\
  createdAt (deals (run s txs) !!! dealId) = createdAt (deals s !!! dealId) /\
  creator (deals (run s txs) !!! dealId) = creator (deals s !!! dealId).
Proof.
  revert s. induction txs as [|tx txs IH]; intros s Hlt; simpl; [auto|].
  destruct (deal_header_exec s tx dealId Hlt) as (<- & <- & <- & <-).
  apply IH. pose proof (dealCounter_exec s tx). lia.
Qed.

(** X3. The name, the required party count, the creation time and the
    creator of an issued deal never change: no function assigns them after
    [createDeal], and [createDeal] never writes an issued id again. *)
Theorem deal_header_immutable (s : State) (txs : list Tx) (dealId : N) :
  dealId < dealCounter s ->
  dealName (deals (run s txs) !!! dealId) = dealName (deals s !!! dealId) /\
  requiredParties (deals (run s txs) !!! dealId) =
    requiredParties (deals s !!! dealId) /\
  createdAt (deals (run s txs) !!! dealId) = createdAt (deals s !!! dealId) /\
  creator (deals (run s txs) !!! dealId) = creator (deals s !!! dealId).
Proof. apply deal_header_run. Qed.

(** X4. What [createDeal] stores is what the views return from then on: in
    every later state [getDeal] of the returned id gives the name, the
    required count, the creation time and the creator of the call, and
    [isCreator] holds of the caller and of nobody else. Right after the call
    the deal is Open, and the counter is one past the id. *)
Theorem createDeal_round_trip (s s1 : State) (caller now_ : N) (name : string)
    (required dealId : N) :
  createDeal caller now_ name required s = Ok (dealId, s1) ->
  dealCounter s1 = dealId + 1 /\
  status (deals s1 !!! dealId) = Open /\
  forall txs : list Tx,
    (exists ps fin can,
       getDeal (run s1 txs) dealId =
         Ok (name, ps, required, now_, fin, can, caller)) /\
    (forall account : N,
       isCreator (run s1 txs) dealId account = Ok true <-> account = caller).
Proof.
  intros H. apply createDeal_Ok in H as (_ & _ & -> & ->). simpl.
  split; [reflexivity|]. split.
  { rewrite lookup_total_insert_eq. reflexivity. }
  intros txs.
  match goal with
  | |- context [run ?s1 txs] =>
      destruct (deal_header_run s1 txs (dealCounter s)) as (Hn & Hr & Ht & Hc);
      [simpl; lia|]
  end.
  simpl in Hn, Hr, Ht, Hc. rewrite lookup_total_insert_eq in Hn, Hr, Ht, Hc.
  simpl in Hn, Hr, Ht, Hc. split.
  - unfold getDeal. rewrite Hn, Hr, Ht, Hc. eauto.
  - intros account. unfold isCreator. rewrite Hc. split.
    + intros [= Heq]. apply N.eqb_eq in Heq. congruence.
    + intros ->. rewrite N.eqb_refl. reflexivity.
Qed.

(** *** The sequence of ids *)

Lemma issued_cons_cases (s : State) (tx : Tx) (txs : list Tx) :
  (issued s (tx :: txs) = dealCounter s :: issued (exec s tx) txs /\
   dealCounter (exec s tx) = dealCounter s + 1) \/
  (issued s (tx :: txs) = issued (exec s tx) txs /\
   dealCounter (exec s tx) = dealCounter s).
Proof.
  destruct tx as [c t [name req|d i pr ti de|d|d|d]]; simpl.
  - destruct (createDeal c t name req s) as [[dealId s']|e] eqn:Hc.
    + left. rewrite (exec_createDeal _ _ _ _ _ _ _ Hc).
      apply createDeal_Ok in Hc as (_ & _ & -> & ->). auto.
    + right. unfold exec, call; simpl. rewrite Hc. auto.
  - right. split; [reflexivity|]. unfold exec.
    destruct (call _ s) eqn:H; [call_inv H|]; reflexivity.
  - right. split; [reflexivity|]. unfold exec.
    destruct (call _ s) eqn:H; [call_inv H|]; reflexivity.
  - right. split; [reflexivity|]. unfold exec.
    destruct (call _ s) eqn:H; [call_inv H|]; reflexivity.
  - right. split; [reflexivity|]. unfold exec.
    destruct (call _ s) eqn:H; [call_inv H|]; reflexivity.
Qed.

Lemma issued_length (s : State) (txs : list Tx) :
  dealCounter (run s txs) = dealCounter s + N.of_nat (length (issued s txs)).
Proof.
  revert s. induction txs as [|tx txs IH]; intros s; [simpl; lia|].
  change (run s (tx :: txs)) with (run (exec s tx) txs).
  destruct (issued_cons_cases s tx txs) as [[-> Hc]|[-> Hc]];
    rewrite IH, Hc; simpl length; lia.
Qed.

Lemma issued_lookup (s : State) (txs : list Tx) (i : nat) (dealId : N) :
  issued s txs !! i = Some dealId -> dealId = dealCounter s + N.of_nat i.
Proof.
  revert s i. induction txs as [|tx txs IH]; intros s i; [discriminate|].
  destruct (issued_cons_cases s tx txs) as [[-> Hc]|[-> Hc]].
  - destruct i as [|i]; simpl.
    + intros [= <-]. lia.
    + intros H. apply IH in H. lia.
  - intros H. apply IH in H. lia.
Qed.

(** X5. The ids [createDeal] returns are consecutive: the i-th successful
    call of a run returns the counter of the start state plus i, so on a
    fresh contract the ids are 0, 1, 2, ...; and [dealCounter] has advanced
    by exactly the number of deals created, failed and other calls leaving
    it alone. *)
Theorem issued_ids_consecutive (s : State) (txs : list Tx) :
  (forall (i : nat) (dealId : N),
     issued s txs !! i = Some dealId -> dealId = dealCounter s + N.of_nat i) /\
  dealCounter (run s txs) = dealCounter s + N.of_nat (length (issued s txs)).
Proof. split; [apply issued_lookup | apply issued_length]. Qed.

(** *** Parties, offers and the deal index agree *)

Lemma listed_party_has_offer (s : State) :
  reachable s ->
  forall dealId who,
    who ∈ parties (deals s !!! dealId) ->
    party ((offers s !!! dealId) !!! who) = who /\ who <> 0.
Proof.
  induction 1 as [|s tx Hs IH Hsender]; intros dealId who.
  - simpl. rewrite lookup_total_empty. simpl. intros Hin. inversion Hin.
  - exec_cases s tx; simpl in Hsender; try apply IH.
    + destruct (decide (dealCounter s = dealId)) as [<-|Hne];
        [rewrite lookup_total_insert_eq; apply IH
        |rewrite lookup_total_insert_ne by exact Hne; apply IH].
    + rewrite lookup_offers_insert. case_decide as Hk.
      * destruct Hk as [-> ->]. intros _. auto.
      * destruct (decide (d = dealId)) as [->|Hne];
          [|rewrite lookup_total_insert_ne by exact Hne; apply IH].
        rewrite lookup_total_insert_eq. simpl. intros Hin.
        apply elem_of_app in Hin as [Hin|Hin]; [apply IH; exact Hin|].
        apply list_elem_of_singleton in Hin. subst who. tauto.
    + rewrite lookup_offers_insert. case_decide as Hk; [|apply IH].
      destruct Hk as [-> ->]. simpl. apply IH.
    + destruct (decide (d = dealId)) as [->|Hne];
        [rewrite lookup_total_insert_eq; apply IH
        |rewrite lookup_total_insert_ne by exact Hne; apply IH].
    + destruct (decide (d = dealId)) as [->|Hne];
        [rewrite lookup_total_insert_eq; apply IH
        |rewrite lookup_total_insert_ne by exact Hne; apply IH].
Qed.

Lemma indexed_deal_has_offer (s : State) :
  reachable s ->
  forall dealId who,
    dealId ∈ partyDeals s !!! who <->
    party ((offers s !!! dealId) !!! who) <> 0.
Proof.
  induction 1 as [|s tx Hs IH Hsender]; intros dealId who.
  - rewrite initial_offer. simpl. rewrite lookup_total_empty. simpl.
    split; [intros Hin; inversion Hin | congruence].
  - exec_cases s tx; simpl in Hsender; try apply IH.
    + rewrite lookup_offers_insert. case_decide as Hk.
      * destruct Hk as [-> ->]. rewrite lookup_total_insert_eq. simpl.
        split; [intros _; exact Hsender|]. intros _.
        apply elem_of_app. right. apply list_elem_of_singleton. reflexivity.
      * destruct (decide (c = who)) as [->|Hne];
          [|rewrite lookup_total_insert_ne by exact Hne; apply IH].
        rewrite lookup_total_insert_eq, <- IH, elem_of_app,
          list_elem_of_singleton.
        split; [|auto]. intros [Hin|Heq]; [exact Hin|]. subst dealId. tauto.
    + rewrite lookup_offers_insert. case_decide as Hk; [|apply IH].
      destruct Hk as [-> ->]. simpl. apply IH.
Qed.

Lemma parties_NoDup (s : State) :
  reachable s -> forall dealId, NoDup (parties (deals s !!! dealId)).
Proof.
  induction 1 as [|s tx Hs IH Hsender]; intros dealId.
  - simpl. rewrite lookup_total_empty. constructor.
  - pose proof (listed_party_has_offer s Hs) as Hlisted.
    exec_cases s tx; simpl in Hsender; try apply IH;
      match goal with
      | |- context [<[?k := _]> _ !!! _] =>
          destruct (decide (k = dealId)) as [Heq|Hne];
          [ rewrite <- ?Heq, lookup_total_insert_eq; simpl; try apply IH
          | rewrite lookup_total_insert_ne by exact Hne; apply IH ]
      end.
    apply NoDup_app. split; [apply IH|]. split; [|apply NoDup_singleton].
    intros who Hin Hwho. apply list_elem_of_singleton in Hwho. subst who.
    subst dealId. destruct (Hlisted d c Hin). congruence.
Qed.

Lemma partyDeals_NoDup (s : State) :
  reachable s -> forall who, NoDup (partyDeals s !!! who).
Proof.
  induction 1 as [|s tx Hs IH Hsender]; intros who.
  - simpl. rewrite lookup_total_empty. constructor.
  - pose proof (indexed_deal_has_offer s Hs) as Hindexed.
    exec_cases s tx; simpl in Hsender; try apply IH.
    destruct (decide (c = who)) as [->|Hne];
      [|rewrite lookup_total_insert_ne by exact Hne; apply IH].
    rewrite lookup_total_insert_eq.
    apply NoDup_app. split; [apply IH|]. split; [|apply NoDup_singleton].
    intros dealId Hin Hd. apply list_elem_of_singleton in Hd. subst dealId.
    apply Hindexed in Hin. congruence.
Qed.

(** X6. In every reachable state the parties list of a deal holds exactly
    the accounts with an offer for the deal, each once: an account is listed
    just when its offer slot is written, and then the slot's [party] field is
    that account. *)
Theorem parties_are_offer_holders (s : State) (dealId : N) :
  reachable s ->
  NoDup (parties (deals s !!! dealId)) /\
  (forall who : N,
     who ∈ parties (deals s !!! dealId) <->
     party ((offers s !!! dealId) !!! who) <> 0) /\
  (forall who : N,
     who ∈ parties (deals s !!! dealId) ->
     getOfferByParty s dealId who =
       Ok (who, encryptedValue ((offers s !!! dealId) !!! who),
           timestamp ((offers s !!! dealId) !!! who),
           revealed ((offers s !!! dealId) !!! who),
           title ((offers s !!! dealId) !!! who),
           description ((offers s !!! dealId) !!! who))).
Proof.
  intros Hs. split; [apply parties_NoDup; exact Hs|]. split.
  - intros who. split.
    + intros Hin. destruct (listed_party_has_offer s Hs dealId who Hin).
      congruence.
    + intros Hp. apply (offer_party_listed s Hs dealId who Hp).
  - intros who Hin. unfold getOfferByParty.
    destruct (listed_party_has_offer s Hs dealId who Hin) as [-> _].
    reflexivity.
Qed.

(** X7. In every reachable state [getDealsByParty] lists exactly the deals
    the account has submitted an offer to, each once: a deal id is in the
    index of an account just when the account is in the parties list of
    that deal. *)
Theorem party_deals_index (s : State) (who : N) :
  reachable s ->
  NoDup (partyDeals s !!! who) /\
  (forall dealId : N,
     dealId ∈ partyDeals s !!! who <->
     who ∈ parties (deals s !!! dealId)) /\
  getDealsByParty s who = Ok (partyDeals s !!! who) /\
  getPartyDealCount s who = Ok (N.of_nat (length (partyDeals s !!! who))).
Proof.
  intros Hs. split; [apply partyDeals_NoDup; exact Hs|]. split; [|auto].
  intros dealId. rewrite (indexed_deal_has_offer s Hs). split.
  - intros Hp. apply (offer_party_listed s Hs dealId who Hp).
  - intros Hin. destruct (listed_party_has_offer s Hs dealId who Hin).
    congruence.
Qed.

(** X8. In every reachable state a deal has at most 100 parties, and the
    public counter [offerCount] of the deal equals the length of its parties
    list, which is what [getPartyCount] returns. *)
Theorem party_count_bounded (s : State) (dealId : N) :
  reachable s ->
  exists n : N,
    getPartyCount s dealId = Ok n /\
    offerCountOf s dealId = Ok n /\
    n <= MAX_PARTIES_PER_DEAL.
Proof.
  intros Hs. destruct (offerCount_parties s Hs dealId) as [Hc Hb].
  exists (N.of_nat (length (parties (deals s !!! dealId)))).
  unfold getPartyCount, offerCountOf. rewrite Hc. auto.
Qed.

(** X9. In a reachable state [submitOffer] succeeds exactly when the deal is
    Open, the caller has no offer for it, the title is not empty, the deal
    has fewer than 100 parties and the FHE library accepts the input; the
    checked increment of the offer count never gets in the way. With the
    other guards passed, a deal that has its 100 parties answers "Maximum
    parties reached". *)
Theorem submitOffer_succeeds_iff (s : State) (dealId caller now_ input : N)
    (proof ti de : string) :
  reachable s ->
  (succeeds (call (mkTx caller now_ (SubmitOffer dealId input proof ti de)) s)
   <->
     status (deals s !!! dealId) = Open /\
     party ((offers s !!! dealId) !!! caller) = 0 /\
     0 < N.of_nat (String.length ti) /\
     N.of_nat (length (parties (deals s !!! dealId))) < MAX_PARTIES_PER_DEAL /\
     is_Some (FHE_fromExternal input proof)) /\
  (status (deals s !!! dealId) = Open ->
   party ((offers s !!! dealId) !!! caller) = 0 ->
   0 < N.of_nat (String.length ti) ->
   MAX_PARTIES_PER_DEAL <= N.of_nat (length (parties (deals s !!! dealId))) ->
     call (mkTx caller now_ (SubmitOffer dealId input proof ti de)) s =
       Err (RequireFailed "Maximum parties reached")).
Proof.
  intros Hs. rewrite status_Open. unfold MAX_PARTIES_PER_DEAL. split.
  - unfold call, succeeds; simpl. split.
    + intros [s' H].
      apply submitOffer_Ok in H as (? & ? & ? & ? & ? & ? & h & ? & _).
      repeat split; eauto.
    + intros ([Hf Hc] & Hp & Hti & Hn & [h Hh]).
      destruct (offerCount_parties s Hs dealId) as [Hcount Hbound].
      eexists. apply submitOffer_Ok. repeat split; eauto.
      rewrite Hcount. unfold MAX_UINT256. lia.
  - intros [Hf Hc] Hp Hti Hn. unfold call, submitOffer; simpl.
    rewrite Hf, Hc, Hp. simpl.
    replace (0 <? N.of_nat (String.length ti)) with true
      by (symmetry; apply N.ltb_lt; exact Hti).
    replace (N.of_nat (length (parties (deals s !!! dealId)))
             <? MAX_PARTIES_PER_DEAL) with false
      by (symmetry; apply N.ltb_ge; exact Hn).
    reflexivity.
Qed.

(** *** The life of an offer *)

Lemma submitOffer_stored (caller now_ dealId input : N) (proof ti de : string)
    (s s1 : State) :
  submitOffer caller now_ dealId input proof ti de s = Ok s1 ->
  exists handle,
    FHE_fromExternal input proof = Some handle /\
    (offers s1 !!! dealId) !!! caller =
      mkOffer caller handle ti de now_ false /\
    deals s1 !!! dealId =
      mkDeal (dealName (deals s !!! dealId))
        (requiredParties (deals s !!! dealId))
        (createdAt (deals s !!! dealId)) false false
        (creator (deals s !!! dealId))
        (parties (deals s !!! dealId) ++ [caller]).
Proof.
  intros H.
  apply submitOffer_Ok in H as (Hf & Hc & _ & _ & _ & _ & h & Hh & ->).
  exists h. simpl. rewrite lookup_offers_insert, decide_True by auto.
  rewrite lookup_total_insert_eq, Hf, Hc. auto.
Qed.

(** X10. What [submitOffer] stores is what the offer views return from then
    on: after a successful submission by an account other than the zero
    address, in every later state [getOfferByParty] and [getOffer] return
    the submitter, the handle the FHE library gave, the submission time, the
    title and the description of that call, each view in its own field
    order; only the [revealed] flag, false right after the call, can differ
    later. *)
Theorem offer_round_trip (s s1 : State) (dealId caller now_ input : N)
    (proof ti de : string) :
  caller <> 0 ->
  call (mkTx caller now_ (SubmitOffer dealId input proof ti de)) s = Ok s1 ->
  exists handle : N,
    FHE_fromExternal input proof = Some handle /\
    getOfferByParty s1 dealId caller =
      Ok (caller, handle, now_, false, ti, de) /\
    forall txs : list Tx,
      exists r : bool,
        getOfferByParty (run s1 txs) dealId caller =
          Ok (caller, handle, now_, r, ti, de) /\
        getOffer (run s1 txs) dealId caller =
          Ok (caller, handle, ti, de, now_, r).
Proof.
  intros Hcaller H. unfold call in H; simpl in H.
  destruct (submitOffer_stored _ _ _ _ _ _ _ _ _ H) as (h & Hh & Ho & _).
  exists h. split; [exact Hh|]. split.
  { unfold getOfferByParty. rewrite Ho. reflexivity. }
  intros txs.
  destruct (offer_kept_run s1 txs dealId caller)
    as (Hp & He & Ht & Hd & Hts & _); [rewrite Ho; exact Hcaller|].
  rewrite Ho in Hp, He, Ht, Hd, Hts. simpl in Hp, He, Ht, Hd, Hts.
  exists (revealed ((offers (run s1 txs) !!! dealId) !!! caller)).
  unfold getOfferByParty, getOffer. rewrite Hp, He, Ht, Hd, Hts. auto.
Qed.

Lemma unrevealed_exec (s : State) (tx : Tx) (dealId who : N) :
  revealed ((offers s !!! dealId) !!! who) = false ->
  ~ (sender tx = who /\ cmd tx = RevealOffer dealId) ->
  revealed ((offers (exec s tx) !!! dealId) !!! who) = false.
Proof.
  intros Hr Hnot.
  exec_cases s tx; simpl in Hnot; try exact Hr;
    rewrite lookup_offers_insert; case_decide as Hk; try exact Hr.
  - reflexivity.
  - destruct Hk as [-> ->]. exfalso. apply Hnot. auto.
Qed.

(** X11. Nobody reveals an offer but its owner: an offer that is not
    revealed stays unrevealed through every run that has no [revealOffer]
    call of that very account on that very deal. *)
Theorem only_owner_reveals (s : State) (txs : list Tx) (dealId who : N) :
  revealed ((offers s !!! dealId) !!! who) = false ->
  Forall (fun tx => ~ (sender tx = who /\ cmd tx = RevealOffer dealId)) txs ->
  revealed ((offers (run s txs) !!! dealId) !!! who) = false.
Proof.
  intros Hr Htxs. revert s Hr.
  induction Htxs as [|tx txs Htx _ IH]; intros s Hr; simpl; [exact Hr|].
  apply IH. apply unrevealed_exec; assumption.
Qed.

(** X12. A deal that was never created cannot be cancelled: on an id that
    [createDeal] has not issued the creator field is the zero address, so
    [isCreator] is false of every account and [cancelDeal] answers "Only
    creator can cancel deal" to every caller. *)
Theorem unissued_deal_not_cancellable (s : State) (dealId caller now_ : N) :
  reachable s ->
  dealCounter s <= dealId ->
  caller <> 0 ->
  isCreator s dealId caller = Ok false /\
  call (mkTx caller now_ (CancelDeal dealId)) s =
    Err (RequireFailed "Only creator can cancel deal").
Proof.
  intros Hs Hle Hcaller.
  destruct (unissued_slots s Hs dealId Hle) as (_ & _ & _ & _ & Hcr).
  unfold isCreator, call, cancelDeal; simpl. rewrite Hcr.
  destruct (N.eqb_spec 0 caller); [congruence|]. auto.
Qed.

(** X13. A submission reopens the reveal phase: right after a successful
    [submitOffer] on a deal, [areAllOffersRevealed] of that deal is false
    and [finalizeDeal], whoever calls it, fails with "Not all offers
    revealed". *)
Theorem submit_blocks_finalize (s s1 : State) (dealId caller now_ input : N)
    (proof ti de : string) :
  call (mkTx caller now_ (SubmitOffer dealId input proof ti de)) s = Ok s1 ->
  areAllOffersRevealed s1 dealId = false /\
  forall anyone later : N,
    call (mkTx anyone later (FinalizeDeal dealId)) s1 =
      Err (RequireFailed "Not all offers revealed").
Proof.
  intros H. unfold call in H; simpl in H.
  destruct (submitOffer_stored _ _ _ _ _ _ _ _ _ H) as (h & _ & Ho & Hd).
  assert (Hall : areAllOffersRevealed s1 dealId = false).
  { destruct (areAllOffersRevealed s1 dealId) eqn:Ha; [|reflexivity].
    apply areAllOffersRevealed_spec in Ha as [_ Ha].
    specialize (Ha caller). rewrite Hd, Ho in Ha. simpl in Ha.
    symmetry. apply Ha. apply elem_of_app. right.
    apply list_elem_of_singleton. reflexivity. }
  split; [exact Hall|]. intros anyone later.
  unfold call, finalizeDeal; simpl. rewrite Hall, Hd. reflexivity.
Qed.

(** *** Closed deals *)

Lemma cancelled_offers_exec (s : State) (tx : Tx) (dealId : N) :
  cancelled (deals s !!! dealId) = true ->
  offers (exec s tx) !!! dealId = offers s !!! dealId.
Proof.
  intros Hc.
  exec_cases s tx; try reflexivity;
    (destruct (decide (d = dealId)) as [->|Hne];
     [congruence | rewrite lookup_total_insert_ne by exact Hne; reflexivity]).
Qed.

Lemma cancelled_frozen_run (s : State) (txs : list Tx) (dealId : N) :
  dealId < dealCounter s ->
  cancelled (deals s !!! dealId) = true ->
  deals (run s txs) !!! dealId = deals s !!! dealId /\
  offers (run s txs) !!! dealId = offers s !!! dealId.
Proof.
  revert s. induction txs as [|tx txs IH]; intros s Hlt Hc; simpl; [auto|].
  assert (Hst : status (deals s !!! dealId) <> Open).
  { rewrite status_Open. intros [_ ?]. congruence. }
  pose proof (terminal_deal_exec s tx dealId Hlt Hst) as Hd.
  pose proof (cancelled_offers_exec s tx dealId Hc) as Ho.
  rewrite <- Hd, <- Ho. apply IH.
  - pose proof (dealCounter_exec s tx). lia.
  - rewrite Hd. exact Hc.
Qed.

(** X14. A cancelled deal is dead for good: in every state after the
    cancellation its record and its offers are what they were, so sealed
    offers stay sealed, and every [submitOffer], [revealOffer],
    [finalizeDeal] and [cancelDeal] on it fails. *)
Theorem cancelled_deal_is_frozen (s : State) (dealId : N) (txs : list Tx) :
  reachable s ->
  cancelled (deals s !!! dealId) = true ->
  deals (run s txs) !!! dealId = deals s !!! dealId /\
  offers (run s txs) !!! dealId = offers s !!! dealId /\
  forall (caller later : N) (c : Cmd),
    target (run s txs) c = dealId ->
    ~ succeeds (call (mkTx caller later c) (run s txs)).
Proof.
  intros Hs Hc.
  assert (Hlt : dealId < dealCounter s).
  { destruct (N.lt_ge_cases dealId (dealCounter s)) as [?|Hle]; [assumption|].
    destruct (unissued_slots s Hs dealId Hle) as (_ & _ & _ & ? & _).
    congruence. }
  destruct (cancelled_frozen_run s txs dealId Hlt Hc) as [Hd Ho].
  split; [exact Hd|]. split; [exact Ho|].
  intros caller later c Ht [s' H].
  pose proof (dealCounter_run s txs) as Hmono.
  destruct c as [name req|d i pr ti de|d|d|d]; simpl in Ht;
    [lia|subst d..]; call_inv H; congruence.
Qed.

Lemma finalized_offers_exec (s : State) (tx : Tx) (dealId : N) :
  reachable s ->
  sender tx <> 0 ->
  finalized (deals s !!! dealId) = true ->
  offers (exec s tx) !!! dealId = offers s !!! dealId.
Proof.
  intros Hs Hsender Hf.
  exec_cases s tx; simpl in Hsender; try reflexivity;
    (destruct (decide (d = dealId)) as [->|Hne];
     [|rewrite lookup_total_insert_ne by exact Hne; reflexivity]).
  - congruence.
  - exfalso.
    destruct (offer_party_listed s Hs dealId c) as [_ Hin]; [congruence|].
    pose proof (finalized_all_revealed s Hs dealId Hf c Hin). congruence.
Qed.

Lemma finalized_frozen_run (s : State) (txs : list Tx) (dealId : N) :
  reachable s ->
  Forall (fun tx => sender tx <> 0) txs ->
  dealId < dealCounter s ->
  finalized (deals s !!! dealId) = true ->
  deals (run s txs) !!! dealId = deals s !!! dealId /\
  offers (run s txs) !!! dealId = offers s !!! dealId.
Proof.
  intros Hs Htxs. revert s Hs.
  induction Htxs as [|tx txs Htx _ IH]; intros s Hs Hlt Hf; simpl; [auto|].
  assert (Hst : status (deals s !!! dealId) <> Open).
  { rewrite status_Open. intros [? _]. congruence. }
  pose proof (terminal_deal_exec s tx dealId Hlt Hst) as Hd.
  pose proof (finalized_offers_exec s tx dealId Hs Htx Hf) as Ho.
  rewrite <- Hd, <- Ho. apply IH.
  - apply reachable_exec; assumption.
  - pose proof (dealCounter_exec s tx). lia.
  - rewrite Hd. exact Hf.
Qed.

(** X15. A created deal that is finalized is closed for good: through every
    later run its record and its offers are what they were, and every
    [submitOffer], [revealOffer], [finalizeDeal] and [cancelDeal] on it
    fails; a reveal has nothing left to reveal, since finalization needed
    every offer revealed. *)
Theorem finalized_deal_is_frozen (s : State) (dealId : N) (txs : list Tx) :
  reachable s ->
  Forall (fun tx => sender tx <> 0) txs ->
  dealId < dealCounter s ->
  finalized (deals s !!! dealId) = true ->
  deals (run s txs) !!! dealId = deals s !!! dealId /\
  offers (run s txs) !!! dealId = offers s !!! dealId /\
  forall (caller later : N) (c : Cmd),
    caller <> 0 ->
    target (run s txs) c = dealId ->
    ~ succeeds (call (mkTx caller later c) (run s txs)).
Proof.
  intros Hs Htxs Hlt Hf.
  destruct (finalized_frozen_run s txs dealId Hs Htxs Hlt Hf) as [Hd Ho].
  split; [exact Hd|]. split; [exact Ho|].
  intros caller later c Hcaller Ht.
  pose proof (dealCounter_run s txs) as Hmono.
  pose proof (reachable_run s txs Hs Htxs) as Hs'.
  destruct c as [name req|d i pr ti de|d|d|d]; simpl in Ht;
    [lia|subst d..].
  - intros [s' H]. call_inv H. congruence.
  - apply revealOffer_finalized_fails; [exact Hs' | exact Hcaller|].
    rewrite Hd. exact Hf.
  - intros [s' H]. call_inv H. congruence.
  - intros [s' H]. call_inv H. congruence.
Qed.

(** *** Access grants *)

Lemma offer_handle_granted (s : State) :
  reachable s ->
  forall dealId who,
    party ((offers s !!! dealId) !!! who) <> 0 ->
    (encryptedValue ((offers s !!! dealId) !!! who), this) ∈ acl s /\
    (encryptedValue ((offers s !!! dealId) !!! who), who) ∈ acl s.
Proof.
  induction 1 as [|s tx Hs IH Hsender]; intros dealId who.
  - rewrite initial_offer. simpl. congruence.
  - exec_cases s tx; simpl in Hsender; try apply IH.
    + rewrite lookup_offers_insert. case_decide as Hk.
      * destruct Hk as [-> ->]. simpl. intros _.
        rewrite !elem_of_app, !elem_of_cons. auto.
      * intros Hp. destruct (IH dealId who Hp).
        rewrite !elem_of_app. auto.
    + rewrite lookup_offers_insert. case_decide as Hk; [|apply IH].
      destruct Hk as [-> ->]. simpl. apply IH.
Qed.

Lemma grant_has_offer (s : State) :
  reachable s ->
  forall handle account,
    (handle, account) ∈ acl s ->
    account = this \/
    exists dealId,
      party ((offers s !!! dealId) !!! account) = account /\
      encryptedValue ((offers s !!! dealId) !!! account) = handle.
Proof.
  induction 1 as [|s tx Hs IH Hsender]; intros handle account.
  - simpl. intros Hin. inversion Hin.
  - pose proof (offer_party_listed s Hs) as Hlisted.
    exec_cases s tx; simpl in Hsender; try apply IH.
    + rewrite elem_of_app, !elem_of_cons. intros [Hin|[Heq|[Heq|Hnil]]].
      * destruct (IH handle account Hin) as [?|(dealId & Hp & He)];
          [auto|]. right. exists dealId.
        rewrite lookup_offers_insert, decide_False; [auto|].
        intros [-> ->]. congruence.
      * injection Heq as -> ->. auto.
      * injection Heq as -> ->. right. exists d.
        rewrite lookup_offers_insert, decide_True by auto. auto.
      * inversion Hnil.
    + intros Hin. destruct (IH handle account Hin) as [?|(dealId & Hp & He)];
        [auto|]. right. exists dealId.
      rewrite lookup_offers_insert. case_decide as Hk; [|auto].
      destruct Hk as [-> ->]. simpl. auto.
Qed.

(** X16. Access to sealed values goes to the contract and to the submitter
    and to nobody else: in every reachable state the handle of every stored
    offer is granted to the contract itself and to the account that
    submitted it, and every grant ever made names the contract or an account
    holding an offer with that handle. Revealing and finalizing grant
    nothing. *)
Theorem grants_only_to_submitters (s : State) :
  reachable s ->
  (forall dealId who : N,
     party ((offers s !!! dealId) !!! who) <> 0 ->
     (encryptedValue ((offers s !!! dealId) !!! who), this) ∈ acl s /\
     (encryptedValue ((offers s !!! dealId) !!! who), who) ∈ acl s) /\
  (forall handle account : N,
     (handle, account) ∈ acl s ->
     account = this \/
     exists dealId : N,
       party ((offers s !!! dealId) !!! account) = account /\
       encryptedValue ((offers s !!! dealId) !!! account) = handle).
Proof.
  intros Hs. split; [apply offer_handle_granted | apply grant_has_offer];
    exact Hs.
Qed.

(** *** The event log *)

Lemma created_ids_counter (s : State) :
  reachable s ->
  created_ids (events s) = N.of_nat <$> seq 0 (N.to_nat (dealCounter s)).
Proof.
  induction 1 as [|s tx Hs IH Hsender]; [reflexivity|].
  unfold created_ids in *.
  exec_cases s tx; try exact IH; rewrite omap_app, IH; simpl;
    try apply app_nil_r.
  rewrite N.add_1_r, N2Nat.inj_succ, seq_S, fmap_app. simpl.
  rewrite N2Nat.id. reflexivity.
Qed.

Lemma submitted_parties_log (s : State) :
  reachable s ->
  forall dealId,
    submitted_parties dealId (events s) = parties (deals s !!! dealId).
Proof.
  induction 1 as [|s tx Hs IH Hsender]; intros dealId.
  - simpl. rewrite lookup_total_empty. reflexivity.
  - unfold submitted_parties in *.
    exec_cases s tx; try apply IH; rewrite omap_app, IH; simpl;
      rewrite ?app_nil_r.
    + destruct (decide (dealCounter s = dealId)) as [<-|Hne];
        [rewrite lookup_total_insert_eq
        |rewrite lookup_total_insert_ne by exact Hne]; reflexivity.
    + destruct (decide (d = dealId)) as [->|Hne];
        [rewrite lookup_total_insert_eq
        |rewrite lookup_total_insert_ne by exact Hne; rewrite app_nil_r];
        reflexivity.
    + reflexivity.
    + destruct (decide (d = dealId)) as [->|Hne];
        [rewrite lookup_total_insert_eq
        |rewrite lookup_total_insert_ne by exact Hne]; reflexivity.
    + destruct (decide (d = dealId)) as [->|Hne];
        [rewrite lookup_total_insert_eq
        |rewrite lookup_total_insert_ne by exact Hne]; reflexivity.
Qed.

(** X17. The event log mirrors the storage: in every reachable state the
    ids of the [DealCreated] events are 0, 1, ... up to the counter, in
    order, and for every deal the parties of its [OfferSubmitted] events, in
    log order, are its parties list. *)
Theorem event_log_mirrors_storage (s : State) :
  reachable s ->
  created_ids (events s) = N.of_nat <$> seq 0 (N.to_nat (dealCounter s)) /\
  forall dealId : N,
    submitted_parties dealId (events s) = parties (deals s !!! dealId).
Proof.
  intros Hs. split; [apply created_ids_counter | apply submitted_parties_log];
    exact Hs.
Qed.

(** *** Progress of the reveal phase *)

(** X18. Once [areAllOffersRevealed] of a deal is true it stays true through
    every transaction that is not a [submitOffer] on that deal: reveals only
    set flags, and no other call touches the parties or the flags read. *)
Theorem all_revealed_stable (s : State) (tx : Tx) (dealId : N) :
  areAllOffersRevealed s dealId = true ->
  (forall input proof ti de, cmd tx <> SubmitOffer dealId input proof ti de) ->
  areAllOffersRevealed (exec s tx) dealId = true.
Proof.
  intros Ha Hns. apply areAllOffersRevealed_spec in Ha as [Hne Hall].
  apply areAllOffersRevealed_spec.
  exec_cases s tx; simpl in Hns; auto.
  - destruct (decide (dealCounter s = dealId)) as [<-|Hd];
      [rewrite lookup_total_insert_eq
      |rewrite lookup_total_insert_ne by exact Hd]; auto.
  - assert (Hd : d <> dealId) by (intros ->; eapply Hns; reflexivity).
    rewrite lookup_total_insert_ne by exact Hd. split; [exact Hne|].
    intros p Hin.
    rewrite lookup_offers_insert, decide_False by (intros [? _]; auto). auto.
  - split; [exact Hne|]. intros p Hin. rewrite lookup_offers_insert.
    case_decide; [reflexivity | auto].
  - destruct (decide (d = dealId)) as [->|Hd];
      [rewrite lookup_total_insert_eq
      |rewrite lookup_total_insert_ne by exact Hd]; auto.
  - destruct (decide (d = dealId)) as [->|Hd];
      [rewrite lookup_total_insert_eq
      |rewrite lookup_total_insert_ne by exact Hd]; auto.
Qed.

(** X19. The last reveal completes the deal: after a successful
    [revealOffer] in a reachable state, [areAllOffersRevealed] of the deal
    is true exactly when every other party of the deal had revealed
    before. *)
Theorem reveal_completes (s s1 : State) (dealId caller now_ : N) :
  reachable s ->
  caller <> 0 ->
  call (mkTx caller now_ (RevealOffer dealId)) s = Ok s1 ->
  (areAllOffersRevealed s1 dealId = true <->
   forall q : N,
     q ∈ parties (deals s !!! dealId) -> q <> caller ->
     revealed ((offers s !!! dealId) !!! q) = true).
Proof.
  intros Hs Hcaller H. unfold call in H; simpl in H.
  apply revealOffer_Ok in H as (Hp & _ & _ & ->).
  destruct (offer_party_listed s Hs dealId caller) as [_ Hin];
    [congruence|].
  rewrite areAllOffersRevealed_spec. simpl. split.
  - intros [_ Hall] q Hq Hne. specialize (Hall q Hq).
    rewrite lookup_offers_insert, decide_False in Hall
      by (intros [_ ?]; auto).
    exact Hall.
  - intros Hall. split.
    + intros Hnil. rewrite Hnil in Hin. inversion Hin.
    + intros q Hq. rewrite lookup_offers_insert.
      case_decide as Hk; [reflexivity|]. apply Hall; [exact Hq|].
      intros ->. apply Hk. auto.
Qed.

End Contract.

(** ** Scenarios *)

(** The end-to-end scenario of the specification: deal 0 with two parties is
    finalized once both have revealed, and not before. *)
Example pilot_scenario :
  let run := run FHE_accept contract_address in
  let call := call FHE_accept contract_address in
  let s2 := run initial [create_pilot; submit_bob; submit_carol] in
  issued FHE_accept contract_address initial [create_pilot] = [0] /\
  getPartyCount s2 0 = Ok 2 /\
  call finalize_carol s2 = Err (RequireFailed "Not all offers revealed") /\
  areAllOffersRevealed (run s2 [reveal_bob]) 0 = false /\
  areAllOffersRevealed (run s2 [reveal_bob; mkTx carol 125 (RevealOffer 0)]) 0
    = true /\
  status (deals (run s2 [reveal_bob; mkTx carol 125 (RevealOffer 0);
                         finalize_carol]) !!! 0) = Finalized /\
  call finalize_carol
    (run s2 [reveal_bob; mkTx carol 125 (RevealOffer 0); finalize_carol]) =
    Err (RequireFailed "Deal already finalized").
Proof. vm_compute. repeat split. Qed.

(** Finalization does not wait for [requiredParties]: one party of the two
    required submits and reveals, and the deal is finalized. *)
Example finalize_below_required :
  status (deals (run FHE_accept contract_address initial
                   [create_pilot; submit_bob; reveal_bob; finalize_carol])
          !!! 0) = Finalized.
Proof. vm_compute. reflexivity. Qed.

(** ** Instances *)

Lemma revealOffer_succeeds_iff_witness :
  bob <> 0 /\
  succeeds (call FHE_accept contract_address reveal_bob
              (run FHE_accept contract_address initial
                 [create_pilot; submit_bob])).
Proof.
  assert (Hbob : bob <> 0) by discriminate.
  split; [exact Hbob|].
  apply (proj1 (revealOffer_succeeds_iff FHE_accept contract_address
                  (run FHE_accept contract_address initial
                     [create_pilot; submit_bob]) 0 bob 120 Hbob)).
  vm_compute. repeat split.
Defined.

Lemma submitOffer_unissued_id_witness :
  reachable FHE_accept contract_address initial /\
  dealCounter initial <= 0 /\
  succeeds (call FHE_accept contract_address submit_bob initial).
Proof.
  assert (Hle : dealCounter initial <= 0) by (simpl; lia).
  split; [apply reachable_initial|]. split; [exact Hle|].
  apply (proj1 (submitOffer_unissued_id FHE_accept contract_address
                  initial 0 bob 110 500 "proof" "Offer B" "terms"
                  (reachable_initial _ _) Hle)).
  vm_compute. repeat split. eexists. reflexivity.
Defined.

Lemma terminal_status_is_final_witness :
  reachable FHE_accept contract_address
    (run FHE_accept contract_address initial [create_pilot; cancel_alice]) /\
  cancelled
    (deals (run FHE_accept contract_address
              (run FHE_accept contract_address initial
                 [create_pilot; cancel_alice])
              [submit_bob; finalize_carol; create_pilot]) !!! 0) =
  cancelled
    (deals (run FHE_accept contract_address initial
              [create_pilot; cancel_alice]) !!! 0).
Proof.
  assert (Hr : reachable FHE_accept contract_address
                 (run FHE_accept contract_address initial
                    [create_pilot; cancel_alice])).
  { apply reachable_run; [apply reachable_initial|].
    repeat constructor; discriminate. }
  split; [exact Hr|].
  apply (proj2 (terminal_status_is_final FHE_accept contract_address _ Hr)
           0 [submit_bob; finalize_carol; create_pilot]).
  - vm_compute. reflexivity.
  - vm_compute. discriminate.
Defined.

Lemma submitOffer_at_most_once_witness :
  call FHE_accept contract_address submit_bob_again
    (run FHE_accept contract_address
       (exec FHE_accept contract_address
          (run FHE_accept contract_address initial [create_pilot]) submit_bob)
       [submit_carol]) =
  Err (RequireFailed "Offer already submitted").
Proof.
  assert (Hbob : bob <> 0) by discriminate.
  assert (Hfirst :
    call FHE_accept contract_address submit_bob
      (run FHE_accept contract_address initial [create_pilot]) =
    Ok (exec FHE_accept contract_address
          (run FHE_accept contract_address initial [create_pilot])
          submit_bob)).
  { vm_compute. reflexivity. }
  exact (proj1 (submitOffer_at_most_once FHE_accept contract_address
                  _ _ 0 bob 110 500 "proof" "Offer B" "terms" Hbob Hfirst
                  [submit_carol] 140 900 "proof" "Offer B2" "new terms")).
Defined.

Lemma createDeal_succeeds_iff_witness :
  dealCounter initial < MAX_UINT256 /\
  succeeds (createDeal alice 100 "Pilot Deal" 2 initial).
Proof.
  assert (Hroom : dealCounter initial < MAX_UINT256) by reflexivity.
  split; [exact Hroom|].
  apply (proj1 (createDeal_succeeds_iff FHE_accept contract_address
                  initial "Pilot Deal" 2 alice 100 Hroom)).
  simpl. lia.
Defined.

Lemma getDeal_unissued_id_witness :
  getDeal initial 0 = Ok (EmptyString, [], 0, 0, false, false, 0).
Proof.
  assert (Hle : dealCounter initial <= 0) by (simpl; lia).
  exact (getDeal_unissued_id FHE_accept contract_address initial 0
           (reachable_initial _ _) Hle).
Defined.

(** ** Where the specification and the contract part *)

(** C3 as stated fails: on the fresh contract no deal was created, and
    [submitOffer] on id 0 succeeds and creates the offer, the parties entry
    and the index entry. *)
Lemma submitOffer_unknown_deal_counterexample :
  dealCounter initial = 0 /\
  succeeds (call FHE_accept contract_address submit_bob initial) /\
  party ((offers (exec FHE_accept contract_address initial submit_bob) !!! 0)
         !!! bob) = bob /\
  parties (deals (exec FHE_accept contract_address initial submit_bob) !!! 0)
    = [bob] /\
  partyDeals (exec FHE_accept contract_address initial submit_bob) !!! bob
    = [0].
Proof. vm_compute. repeat split. eexists. reflexivity. Qed.

(** C4 as stated fails: id 0 is finalized before it is issued; the
    [createDeal] that issues it clears the flag, and the parties list grows
    again. *)
Lemma finalized_cleared_counterexample :
  let run := run FHE_accept contract_address in
  let s := run initial [submit_bob; reveal_bob; finalize_carol] in
  finalized (deals s !!! 0) = true /\
  parties (deals s !!! 0) = [bob] /\
  finalized (deals (run s [create_pilot]) !!! 0) = false /\
  parties (deals (run s [create_pilot; submit_carol]) !!! 0) = [bob; carol].
Proof. vm_compute. repeat split. Qed.

(** C5 as stated fails: the second attempt on a deal cancelled in between is
    answered by the status guard, not by "Offer already submitted". *)
Lemma second_submit_counterexample :
  let run := run FHE_accept contract_address in
  let call := call FHE_accept contract_address in
  succeeds (call submit_bob (run initial [create_pilot])) /\
  call submit_bob_again (run initial [create_pilot; submit_bob; cancel_alice])
    = Err (RequireFailed "Deal has been cancelled").
Proof. vm_compute. split; [eexists|]; reflexivity. Qed.

(** C8 as stated fails: on the fresh contract [getDeal 0] returns the
    all-zero record. *)
Lemma getDeal_unused_counterexample :
  dealCounter initial = 0 /\
  getDeal initial 0 = Ok (EmptyString, [], 0, 0, false, false, 0).
Proof. split; reflexivity. Qed.

(** C10 as stated fails twice: a cancelled deal without parties answers
    "Deal has been cancelled", and an id that was never issued can have
    parties and be finalized. *)
Lemma finalize_empty_counterexample :
  let run := run FHE_accept contract_address in
  let call := call FHE_accept contract_address in
  parties (deals (run initial [create_pilot; cancel_alice]) !!! 0) = [] /\
  call finalize_carol (run initial [create_pilot; cancel_alice]) =
    Err (RequireFailed "Deal has been cancelled") /\
  dealCounter (run initial [submit_bob; reveal_bob]) = 0 /\
  succeeds (call finalize_carol (run initial [submit_bob; reveal_bob])).
Proof. vm_compute. repeat split. eexists. reflexivity. Qed.

(** ** Instances of the further properties *)

(** The states of the pilot deal: created; with bob's offer; with both
    offers; with bob's offer revealed; cancelled; finalized. *)
Definition pilot_created : State :=
  run FHE_accept contract_address initial [create_pilot].
Definition pilot_offer : State :=
  run FHE_accept contract_address initial [create_pilot; submit_bob].
Definition pilot_two_offers : State :=
  run FHE_accept contract_address initial
    [create_pilot; submit_bob; submit_carol].
Definition pilot_revealed : State :=
  run FHE_accept contract_address initial
    [create_pilot; submit_bob; reveal_bob].
Definition pilot_cancelled : State :=
  run FHE_accept contract_address initial
    [create_pilot; submit_bob; cancel_alice].
Definition pilot_finalized : State :=
  run FHE_accept contract_address initial
    [create_pilot; submit_bob; reveal_bob; finalize_carol].

Ltac reach :=
  apply reachable_run;
  [ apply reachable_initial | repeat constructor; discriminate ].

Lemma pilot_offer_reachable : reachable FHE_accept contract_address pilot_offer.
Proof. unfold pilot_offer. reach. Qed.

(** The party cap at work: after one hundred accounts have submitted to
    deal 0 the next submission is turned away. *)
Example party_cap_scenario :
  let submit (who : nat) : Tx :=
    mkTx (N.of_nat who) 110 (SubmitOffer 0 500 "proof" "Offer" "terms") in
  let full :=
    run FHE_accept contract_address pilot_created (submit <$> seq 1 100) in
  getPartyCount full 0 = Ok 100 /\
  getPartyCount (run FHE_accept contract_address pilot_created
                   (submit <$> seq 1 99)) 0 = Ok 99 /\
  call FHE_accept contract_address (submit 101%nat) full =
    Err (RequireFailed "Maximum parties reached").
Proof. vm_compute. repeat split. Qed.

Lemma other_deals_untouched_witness :
  deals (exec FHE_accept contract_address pilot_created submit_bob) !!! 1 =
  deals pilot_created !!! 1.
Proof.
  assert (Ht : target pilot_created (cmd submit_bob) <> 1) by discriminate.
  exact (proj1 (other_deals_untouched FHE_accept contract_address
                  pilot_created submit_bob 1 Ht)).
Defined.

Lemma deal_header_immutable_witness :
  dealName (deals (run FHE_accept contract_address pilot_created
                     [submit_bob; cancel_alice]) !!! 0) =
  dealName (deals pilot_created !!! 0).
Proof.
  assert (Hlt : 0 < dealCounter pilot_created) by reflexivity.
  exact (proj1 (deal_header_immutable FHE_accept contract_address
                  pilot_created [submit_bob; cancel_alice] 0 Hlt)).
Defined.

Lemma createDeal_round_trip_witness :
  dealCounter pilot_created = 0 + 1.
Proof.
  assert (H : createDeal alice 100 "Pilot Deal" 2 initial =
              Ok (0, pilot_created)) by (vm_compute; reflexivity).
  exact (proj1 (createDeal_round_trip FHE_accept contract_address
                  initial pilot_created alice 100 "Pilot Deal" 2 0 H)).
Defined.

Lemma parties_are_offer_holders_witness :
  NoDup (parties (deals pilot_offer !!! 0)).
Proof.
  exact (proj1 (parties_are_offer_holders FHE_accept contract_address
                  pilot_offer 0 pilot_offer_reachable)).
Defined.

Lemma party_deals_index_witness :
  NoDup (partyDeals pilot_offer !!! bob).
Proof.
  exact (proj1 (party_deals_index FHE_accept contract_address
                  pilot_offer bob pilot_offer_reachable)).
Defined.

Lemma party_count_bounded_witness :
  exists n : N,
    getPartyCount pilot_offer 0 = Ok n /\
    offerCountOf pilot_offer 0 = Ok n /\
    n <= MAX_PARTIES_PER_DEAL.
Proof.
  exact (party_count_bounded FHE_accept contract_address
           pilot_offer 0 pilot_offer_reachable).
Defined.

Lemma submitOffer_succeeds_iff_witness :
  succeeds (call FHE_accept contract_address submit_carol pilot_offer).
Proof.
  apply (proj1 (submitOffer_succeeds_iff FHE_accept contract_address
                  pilot_offer 0 carol 150 700 "proof" "Offer C" "terms"
                  pilot_offer_reachable)).
  vm_compute. repeat split. eexists. reflexivity.
Defined.

Lemma offer_round_trip_witness :
  exists handle : N,
    FHE_accept 500 "proof" = Some handle /\
    getOfferByParty pilot_offer 0 bob =
      Ok (bob, handle, 110, false, "Offer B"%string, "terms"%string) /\
    forall txs : list Tx,
      exists r : bool,
        getOfferByParty (run FHE_accept contract_address pilot_offer txs)
          0 bob =
          Ok (bob, handle, 110, r, "Offer B"%string, "terms"%string) /\
        getOffer (run FHE_accept contract_address pilot_offer txs) 0 bob =
          Ok (bob, handle, "Offer B"%string, "terms"%string, 110, r).
Proof.
  assert (Hbob : bob <> 0) by discriminate.
  assert (H : call FHE_accept contract_address submit_bob pilot_created =
              Ok pilot_offer) by (vm_compute; reflexivity).
  exact (offer_round_trip FHE_accept contract_address pilot_created
           pilot_offer 0 bob 110 500 "proof" "Offer B" "terms" Hbob H).
Defined.

Lemma only_owner_reveals_witness :
  revealed ((offers (run FHE_accept contract_address pilot_offer
                       [submit_carol; mkTx carol 125 (RevealOffer 0);
                        finalize_carol]) !!! 0) !!! bob) = false.
Proof.
  assert (Hr : revealed ((offers pilot_offer !!! 0) !!! bob) = false)
    by (vm_compute; reflexivity).
  apply (only_owner_reveals FHE_accept contract_address pilot_offer
           [submit_carol; mkTx carol 125 (RevealOffer 0); finalize_carol]
           0 bob Hr).
  repeat constructor; intros [Hsender _]; discriminate Hsender.
Defined.

Lemma unissued_deal_not_cancellable_witness :
  call FHE_accept contract_address (mkTx alice 100 (CancelDeal 0)) initial =
  Err (RequireFailed "Only creator can cancel deal").
Proof.
  assert (Hle : dealCounter initial <= 0) by (simpl; lia).
  assert (Halice : alice <> 0) by discriminate.
  exact (proj2 (unissued_deal_not_cancellable FHE_accept contract_address
                  initial 0 alice 100 (reachable_initial _ _) Hle Halice)).
Defined.

Lemma submit_blocks_finalize_witness :
  areAllOffersRevealed pilot_offer 0 = false.
Proof.
  assert (H : call FHE_accept contract_address submit_bob pilot_created =
              Ok pilot_offer) by (vm_compute; reflexivity).
  exact (proj1 (submit_blocks_finalize FHE_accept contract_address
                  pilot_created pilot_offer 0 bob 110 500 "proof" "Offer B"
                  "terms" H)).
Defined.

Lemma cancelled_deal_is_frozen_witness :
  offers (run FHE_accept contract_address pilot_cancelled
            [reveal_bob; submit_carol]) !!! 0 =
  offers pilot_cancelled !!! 0.
Proof.
  assert (Hs : reachable FHE_accept contract_address pilot_cancelled)
    by (unfold pilot_cancelled; reach).
  assert (Hc : cancelled (deals pilot_cancelled !!! 0) = true)
    by (vm_compute; reflexivity).
  exact (proj1 (proj2 (cancelled_deal_is_frozen FHE_accept contract_address
                         pilot_cancelled 0 [reveal_bob; submit_carol]
                         Hs Hc))).
Defined.

Lemma finalized_deal_is_frozen_witness :
  deals (run FHE_accept contract_address pilot_finalized
           [submit_carol; cancel_alice]) !!! 0 =
  deals pilot_finalized !!! 0.
Proof.
  assert (Hs : reachable FHE_accept contract_address pilot_finalized)
    by (unfold pilot_finalized; reach).
  assert (Htxs : Forall (fun tx => sender tx <> 0)
                   [submit_carol; cancel_alice])
    by (repeat constructor; discriminate).
  assert (Hlt : 0 < dealCounter pilot_finalized) by reflexivity.
  assert (Hf : finalized (deals pilot_finalized !!! 0) = true)
    by (vm_compute; reflexivity).
  exact (proj1 (finalized_deal_is_frozen FHE_accept contract_address
                  pilot_finalized 0 [submit_carol; cancel_alice]
                  Hs Htxs Hlt Hf)).
Defined.

Lemma grants_only_to_submitters_witness :
  (encryptedValue ((offers pilot_offer !!! 0) !!! bob), contract_address)
    ∈ acl pilot_offer /\
  (encryptedValue ((offers pilot_offer !!! 0) !!! bob), bob)
    ∈ acl pilot_offer.
Proof.
  assert (Hp : party ((offers pilot_offer !!! 0) !!! bob) <> 0)
    by (vm_compute; discriminate).
  exact (proj1 (grants_only_to_submitters FHE_accept contract_address
                  pilot_offer pilot_offer_reachable) 0 bob Hp).
Defined.

Lemma event_log_mirrors_storage_witness :
  submitted_parties 0 (events pilot_offer) = parties (deals pilot_offer !!! 0).
Proof.
  exact (proj2 (event_log_mirrors_storage FHE_accept contract_address
                  pilot_offer pilot_offer_reachable) 0).
Defined.

Lemma all_revealed_stable_witness :
  areAllOffersRevealed
    (exec FHE_accept contract_address pilot_revealed cancel_alice) 0 = true.
Proof.
  assert (Ha : areAllOffersRevealed pilot_revealed 0 = true)
    by (vm_compute; reflexivity).
  apply (all_revealed_stable FHE_accept contract_address pilot_revealed
           cancel_alice 0 Ha).
  intros input proof ti de. discriminate.
Defined.

Lemma reveal_completes_witness :
  areAllOffersRevealed
    (exec FHE_accept contract_address pilot_two_offers reveal_bob) 0 = true <->
  forall q : N,
    q ∈ parties (deals pilot_two_offers !!! 0) -> q <> bob ->
    revealed ((offers pilot_two_offers !!! 0) !!! q) = true.
Proof.
  assert (Hs : reachable FHE_accept contract_address pilot_two_offers)
    by (unfold pilot_two_offers; reach).
  assert (Hbob : bob <> 0) by discriminate.
  assert (H : call FHE_accept contract_address reveal_bob pilot_two_offers =
              Ok (exec FHE_accept contract_address pilot_two_offers
                    reveal_bob)) by (vm_compute; reflexivity).
  exact (reveal_completes FHE_accept contract_address pilot_two_offers
           _ 0 bob 120 Hs Hbob H).
Defined.
